(** * Commbox bot builder: the Draw.io to Commbox conversion core

    A shallow embedding of the conversion pipeline of the backend
    ([decodeDrawio], [parseDrawioFile], [extractNodes],
    [extractConnections], [detectNodeType], [buildHierarchy],
    [convertToCommboxNode], [generateCommboxXML], the
    [/api/converter/convert] handler, the upload filter and the
    error-handling middleware), with the properties of its
    specification, and further properties of the code, stated and proved
    over it.

    Conventions.
    - A JavaScript string is a [string] holding its UTF-8 bytes.  Substring
      search over well-formed UTF-8 agrees with substring search over
      UTF-16 code units, and the one place where the code reads [.length]
      counts code units with [js_length].
    - A value that may be [undefined] is an [option]; [None] is [undefined].
    - A plain object whose key order matters (everything handed to
      [JSON.stringify]) is an association list in insertion order.
    - The [Map] of [buildHierarchy] is a [gmap]; its objects are shared by
      reference in the source, so a mutation of a node is an [alter] of
      the map entry that holds it.
    - The [Set] of [generateCommboxXML] is the list of its elements in
      insertion order.
    - Functions of the platform and of the libraries the code calls
      ([toLowerCase], [trim], [Buffer.from], [pako.inflateRaw],
      [decodeURIComponent], [xml2js], the clock) are Section variables. *)

From Stdlib Require Import Ascii String Init.Byte.
From stdpp Require Import gmap strings list fin_maps pretty.

#[local] Set Warnings "-register-all,-clear-no-such-hyp".
Open Scope string_scope.
Open Scope list_scope.
Open Scope nat_scope.

(** ** JavaScript strings *)

Module JsString.

(** [s.startsWith(p)] *)
Fixpoint startsWith (s p : string) : bool :=
  match p, s with
  | EmptyString, _ => true
  | String _ _, EmptyString => false
  | String a p', String b s' => if Ascii.eqb a b then startsWith s' p' else false
  end.

(** [s.includes(sub)] *)
Fixpoint includes (s sub : string) : bool :=
  startsWith s sub ||
  match s with
  | EmptyString => false
  | String _ s' => includes s' sub
  end.

(** [sub] occurs in [s]. *)
Definition occurs_in (sub s : string) : Prop :=
  ∃ a b, s = a +:+ sub +:+ b.

(** Truthiness of a string: only the empty string is falsy. *)
Definition truthy (s : string) : bool :=
  match s with EmptyString => false | String _ _ => true end.

(** Truthiness of a string that may be [undefined]. *)
Definition truthy_opt (a : option string) : bool :=
  match a with None => false | Some s => truthy s end.

(** [a || b] on strings. *)
Definition or_else (a b : string) : string := if truthy a then a else b.

(** Number of UTF-16 code units of one UTF-8 byte: a continuation byte
    counts for nothing, the lead byte of a four-byte sequence for two (a
    surrogate pair), every other byte for one. *)
Definition units_of_byte (c : ascii) : nat :=
  let n := nat_of_ascii c in
  if (n <? 128)%nat then 1 else if (n <? 192)%nat then 0 else if (n <? 240)%nat then 1 else 2.

(** [s.length] *)
Fixpoint js_length (s : string) : nat :=
  match s with
  | EmptyString => 0
  | String c s' => units_of_byte c + js_length s'
  end.

(** [s.replace(/c/g, rep)] for a pattern that is the single character [c]. *)
Fixpoint replaceAll (c : ascii) (rep : string) (s : string) : string :=
  match s with
  | EmptyString => EmptyString
  | String a s' =>
      (if Ascii.eqb a c then rep else String a EmptyString) +:+ replaceAll c rep s'
  end.

(** The characters of a string. *)
Definition chars (s : string) : list ascii := list_ascii_of_string s.

(** [parts.join(sep)] *)
Fixpoint join (sep : string) (parts : list string) : string :=
  match parts with
  | [] => EmptyString
  | [p] => p
  | p :: rest => p +:+ sep +:+ join sep rest
  end.

(** ASCII lower-casing: the instance of [toLowerCase] used in the
    examples.  It agrees with [String.prototype.toLowerCase] on strings
    whose cased letters are all ASCII. *)
Definition lower_ascii (c : ascii) : ascii :=
  let n := nat_of_ascii c in
  if ((65 <=? n) && (n <=? 90))%nat then ascii_of_nat (n + 32) else c.

Fixpoint toLowerCase_ascii (s : string) : string :=
  match s with
  | EmptyString => EmptyString
  | String c s' => String (lower_ascii c) (toLowerCase_ascii s')
  end.

End JsString.

Import JsString.

(** ** JSON values and [JSON.stringify] *)

Inductive json : Type :=
  | JStr (s : string)
  | JNum (n : nat)
  | JBool (b : bool)
  | JArr (items : list json)
  | JObj (fields : list (string * json)).

(** A plain object: its properties in insertion order. *)
Abbreviation jsobject := (list (string * json)).

(** [o[k]], [None] for [undefined]. *)
Fixpoint prop (o : jsobject) (k : string) : option json :=
  match o with
  | [] => None
  | (k', v) :: o' => if String.eqb k' k then Some v else prop o' k
  end.

(** [o[k] = v]: an existing property keeps its place, a new one goes last. *)
Fixpoint set_prop (o : jsobject) (k : string) (v : json) : jsobject :=
  match o with
  | [] => [(k, v)]
  | (k', v') :: o' =>
      if String.eqb k' k then (k', v) :: o' else (k', v') :: set_prop o' k v
  end.

(** A property read where the code uses it as a string. *)
Definition prop_string (o : jsobject) (k : string) : string :=
  match prop o k with
  | Some (JStr s) => s
  | _ => "undefined"
  end.

Module Json.

Definition dquote : ascii := "034"%char.
Definition backslash : ascii := "092"%char.

Definition hex_digit (n : nat) : ascii :=
  if (n <? 10)%nat then ascii_of_nat (48 + n) else ascii_of_nat (87 + n).

(** The escape of one character inside a JSON string literal. *)
Definition escape_char (c : ascii) : string :=
  let n := nat_of_ascii c in
  if Ascii.eqb c dquote then String backslash (String dquote EmptyString)
  else if Ascii.eqb c backslash then String backslash (String backslash EmptyString)
  else if (n =? 8)%nat then String backslash "b"
  else if (n =? 9)%nat then String backslash "t"
  else if (n =? 10)%nat then String backslash "n"
  else if (n =? 12)%nat then String backslash "f"
  else if (n =? 13)%nat then String backslash "r"
  else if (n <? 32)%nat then
    String backslash ("u00" +:+ String (hex_digit (n / 16)) (String (hex_digit (n mod 16)) EmptyString))
  else String c EmptyString.

Fixpoint escape (s : string) : string :=
  match s with
  | EmptyString => EmptyString
  | String c s' => escape_char c +:+ escape s'
  end.

Definition quote (s : string) : string :=
  String dquote (escape s +:+ String dquote EmptyString).

(** [JSON.stringify(v)] without indentation. *)
Fixpoint stringify (v : json) : string :=
  match v with
  | JStr s => quote s
  | JNum n => pretty n
  | JBool b => if b then "true" else "false"
  | JArr items => "[" +:+ join "," (map stringify items) +:+ "]"
  | JObj fields =>
      "{" +:+
      join "," (map (λ kv, match kv with (k, w) => quote k +:+ ":" +:+ stringify w end) fields)
      +:+ "}"
  end.

End Json.

(** ** Data model *)

(** An XML attribute read from the parsed diagram: a string, or [undefined]
    when the cell does not carry it. *)
Abbreviation attr := (option string).

(** The objects pushed by [extractNodes]. *)
Record DiagramNode := mkDiagramNode {
  node_id : attr;
  node_value : string;
  node_style : string;
  node_parent : attr;
  node_geometry : list (string * string)
}.

(** The objects pushed by [extractConnections]. *)
Record Connection := mkConnection {
  conn_id : attr;
  conn_source : attr;
  conn_target : attr;
  conn_value : string
}.

(** The objects of [nodeMap]: [{...node, children: []}]. *)
Record HierarchyNode := mkHierarchyNode {
  h_id : attr;
  h_value : string;
  h_style : string;
  h_parent : attr;
  h_geometry : list (string * string);
  h_children : list attr
}.

(** The tags returned by [detectNodeType]. *)
Inductive NodeType : Set :=
  | NT_transfer | NT_unknown | NT_error | NT_end | NT_start | NT_input
  | NT_decision | NT_message.

Record ParsedData := mkParsedData {
  nodes : list DiagramNode;
  connections : list Connection;
  mxGraphModelXml : string
}.

(** ** Hierarchy builder *)

Definition of_node (node : DiagramNode) : HierarchyNode :=
  {| h_id := node_id node; h_value := node_value node; h_style := node_style node;
     h_parent := node_parent node; h_geometry := node_geometry node;
     h_children := [] |}.

(** [sourceNode.children.push(childId)] *)
Definition push_child (childId : attr) (n : HierarchyNode) : HierarchyNode :=
  {| h_id := h_id n; h_value := h_value n; h_style := h_style n;
     h_parent := h_parent n; h_geometry := h_geometry n;
     h_children := h_children n ++ [childId] |}.

(** [targetNode.parent = parentId] *)
Definition set_parent (parentId : attr) (n : HierarchyNode) : HierarchyNode :=
  {| h_id := h_id n; h_value := h_value n; h_style := h_style n;
     h_parent := parentId; h_geometry := h_geometry n;
     h_children := h_children n |}.

(** First loop of [buildHierarchy]: [nodeMap.set(node.id, {...node, children: []})]. *)
Definition register (nodeMap : gmap attr HierarchyNode) (node : DiagramNode)
  : gmap attr HierarchyNode :=
  <[node_id node := of_node node]> nodeMap.

(** Second loop: one connection.  [sourceNode] and [targetNode] are the
    objects held by the map, the same object when the connection is a
    self-loop, so both mutations go through the map. *)
Definition link (nodeMap : gmap attr HierarchyNode) (conn : Connection)
  : gmap attr HierarchyNode :=
  match nodeMap !! conn_source conn, nodeMap !! conn_target conn with
  | Some sourceNode, Some targetNode =>
      alter (set_parent (h_id sourceNode)) (conn_target conn)
        (alter (push_child (h_id targetNode)) (conn_source conn) nodeMap)
  | _, _ => nodeMap
  end.

(** The test of the third loop:
    [!parent || parent === '1' || parent === '0']. *)
Definition is_root (n : HierarchyNode) : bool :=
  negb (truthy_opt (h_parent n))
  || bool_decide (h_parent n = Some "1")
  || bool_decide (h_parent n = Some "0").

(** Third loop: the root nodes, in the order of [nodes].  Every [node.id]
    was registered by the first loop, so the lookup always answers. *)
Definition find_roots (nodeMap : gmap attr HierarchyNode) (ns : list DiagramNode)
  : list HierarchyNode :=
  omap (λ node,
          match nodeMap !! node_id node with
          | Some hierarchyNode => if is_root hierarchyNode then Some hierarchyNode else None
          | None => None
          end) ns.

Definition buildHierarchy (ns : list DiagramNode) (conns : list Connection)
  : gmap attr HierarchyNode * list HierarchyNode :=
  let nodeMap := foldl link (foldl register ∅ ns) conns in
  (nodeMap, find_roots nodeMap ns).

(** ** Node classifier and script generator *)

(** The state the closure [processNode] shares with [generateCommboxXML]. *)
Record GenState := mkGenState {
  scriptArray : list jsobject;
  nodeIndex : nat;
  processedNodes : list attr
}.

(** [processedNodes.has(x)] *)
Definition set_has (s : list attr) (x : attr) : bool := bool_decide (x ∈ s).

(** [processedNodes.add(x)] *)
Definition set_add (x : attr) (s : list attr) : list attr :=
  if set_has s x then s else s ++ [x].

(** [xs.forEach(f)] for a callback that updates a state and may not return. *)
Fixpoint forEachM {A S : Type} (f : A → S → option S) (xs : list A) (s : S) : option S :=
  match xs with
  | [] => Some s
  | x :: xs' =>
      match f x s with
      | Some s' => forEachM f xs' s'
      | None => None
      end
  end.

(** The first element of [scriptArray]. *)
Definition configRecord : jsobject :=
  [ ("seedId", JNum 44); ("endNodeId", JStr ""); ("genericDelayJumpTime", JStr "");
    ("genericDelayJumpNode", JStr ""); ("genericRedisplayTime", JStr "");
    ("genericRedisplayMessage", JStr ""); ("dataContextExpirationTime", JStr "");
    ("engineVersion", JNum 0); ("allowUsingAI", JBool false);
    ("importMismatches", JArr []); ("assistantId", JStr "") ].

(** The root node [node_0]. *)
Definition rootRecord : jsobject :=
  [ ("id", JStr "node_0"); ("text", JStr "התחלה"); ("parent", JStr "#");
    ("rI", JStr "2"); ("addChannelStateMessage", JBool false); ("attachments", JObj []) ].

(** The fixed process nodes pushed after the traversal. *)
Definition groupRecord : jsobject :=
  [ ("id", JStr "n_3"); ("text", JStr "תהליכים קבועים"); ("parent", JStr "node_0");
    ("buttonDisplayMode", JStr "1"); ("rI", JStr "2");
    ("addChannelStateMessage", JBool false); ("attachments", JObj []) ].

Definition transferRecord : jsobject :=
  [ ("id", JStr "n_10"); ("text", JStr "מעבר לנציג"); ("parent", JStr "n_3");
    ("rI", JStr "2"); ("addChannelStateMessage", JBool false); ("attachments", JObj []) ].

Definition errorRecord : jsobject :=
  [ ("id", JStr "n_11"); ("text", JStr "Error"); ("parent", JStr "n_3");
    ("rI", JStr "2"); ("addChannelStateMessage", JBool false); ("error", JBool true) ].

Definition unknownRecord : jsobject :=
  [ ("id", JStr "n_12"); ("text", JStr "לא ידוע"); ("parent", JStr "n_3");
    ("rI", JStr "2"); ("addChannelStateMessage", JBool false); ("unknown", JStr "1") ].

Definition fixedProcessRecords : list jsobject :=
  [groupRecord; transferRecord; errorRecord; unknownRecord].

(** The five replacements applied to the serialized script. *)
Definition escapeXml (scriptValue : string) : string :=
  replaceAll "'" "&apos;"
    (replaceAll Json.dquote "&quot;"
       (replaceAll ">" "&gt;"
          (replaceAll "<" "&lt;"
             (replaceAll "&" "&amp;" scriptValue)))).

(** The envelope around the escaped script. *)
Definition envelope (escapedValue timestamp : string) (now : nat) : string :=
  let q := String Json.dquote EmptyString in
  let nl := String "010" EmptyString in
  "<?xml version=" +:+ q +:+ "1.0" +:+ q +:+ " encoding=" +:+ q +:+ "UTF-8" +:+ q +:+ "?>" +:+ nl +:+
  "<Section Name=" +:+ q +:+ "Scripts" +:+ q +:+ ">" +:+ nl +:+
  "    <SCRIPT Value=" +:+ q +:+ escapedValue +:+ q +:+ " " +:+ nl +:+
  "            EncryptedStreamId=" +:+ q +:+ "generated_" +:+ pretty now +:+ q +:+ " " +:+ nl +:+
  "            Name=" +:+ q +:+ "Bot Generated " +:+ timestamp +:+ q +:+ " " +:+ nl +:+
  "            Brand=" +:+ q +:+ "802" +:+ q +:+ " />" +:+ nl +:+
  "</Section>".

Section Generator.

(** [String.prototype.toLowerCase] *)
Variable toLowerCase : string → string.

Definition detectNodeType (node : HierarchyNode) : NodeType :=
  let value := toLowerCase (or_else (h_value node) "") in
  let style := toLowerCase (or_else (h_style node) "") in
  if includes value "מעבר לנציג" || includes value "transfer" || includes value "agent"
  then NT_transfer
  else if includes value "לא ידוע" || includes value "unknown" then NT_unknown
  else if includes value "שגיאה" || includes value "error" then NT_error
  else if includes value "סיום" || includes value "סגירה"
          || includes value "end" || includes value "close" then NT_end
  else if includes value "התחלה" || includes value "start" then NT_start
  else if includes value "קלט" || includes value "input" then NT_input
  else if includes style "ellipse" || includes style "circle" then NT_start
  else if includes style "rhombus" || includes style "diamond" then NT_decision
  else NT_message.

(** The data-collection descriptor of an input node. *)
Definition inputField (node : HierarchyNode) (index : nat) : json :=
  JObj [ ("uniqueName", JStr ("input_" +:+ pretty index));
         ("name", JStr (or_else (h_value node) "הזן קלט"));
         ("labelDescription", JStr ""); ("type", JStr "string");
         ("key", JBool false); ("isVisible", JBool false);
         ("isMandatory", JBool true); ("askOnlyOnce", JBool false);
         ("isSystemField", JBool false); ("fieldType", JStr "1");
         ("validation", JStr "") ].

Definition convertToCommboxNode (node : HierarchyNode) (index : nat) (parentId : string)
  : jsobject :=
  let nodeType := detectNodeType node in
  let nodeId := "n_" +:+ pretty index in
  let commboxNode :=
    [ ("id", JStr nodeId);
      ("text", JStr (or_else (h_value node) ("Node " +:+ pretty index)));
      ("parent", JStr parentId);
      ("rI", JStr "2");
      ("addChannelStateMessage", JBool false);
      ("attachments", JObj []) ] in
  match nodeType with
  | NT_message =>
      if truthy (h_value node) && (20 <? js_length (h_value node))%nat
      then set_prop commboxNode "bodyHtml" (JStr (h_value node))
      else commboxNode
  | NT_transfer => set_prop commboxNode "step" (JStr "agent_node")
  | NT_unknown => set_prop commboxNode "unknown" (JStr "1")
  | NT_error => set_prop commboxNode "error" (JBool true)
  | NT_end => set_prop commboxNode "end" (JStr "2")
  | NT_input => set_prop commboxNode "d_e" (JArr [inputField node index])
  | NT_start | NT_decision => commboxNode
  end.

(** [processNode(node, parentId)].  The recursion of the source follows
    the edges of the diagram; [fuel] bounds the number of nodes that are
    still to be emitted, and [None] is a run that has not returned within
    it.  A node that was already processed returns without using fuel. *)
Fixpoint processNode (fuel : nat) (nodeMap : gmap attr HierarchyNode)
    (node : HierarchyNode) (parentId : string) (st : GenState) : option GenState :=
  if set_has (processedNodes st) (h_id node) then Some st
  else
    match fuel with
    | O => None
    | S fuel' =>
        let commboxNode := convertToCommboxNode node (nodeIndex st) parentId in
        let st1 :=
          {| scriptArray := scriptArray st ++ [commboxNode];
             nodeIndex := S (nodeIndex st);
             processedNodes := set_add (h_id node) (processedNodes st) |} in
        forEachM
          (λ childId s,
             match nodeMap !! childId with
             | Some childNode =>
                 processNode fuel' nodeMap childNode (prop_string commboxNode "id") s
             | None => Some s
             end)
          (h_children node) st1
    end.

(** The state before the traversal: the configuration and the root node. *)
Definition initialState : GenState :=
  {| scriptArray := [configRecord; rootRecord]; nodeIndex := 2; processedNodes := [] |}.

(** The traversal of all hierarchy roots, each under [node_0], with
    [fuel] for each call of [processNode]. *)
Definition processRootsWith (fuel : nat) (nodeMap : gmap attr HierarchyNode)
    (hierarchy : list HierarchyNode) : option GenState :=
  forEachM (λ rootNode s, processNode fuel nodeMap rootNode "node_0" s)
    hierarchy initialState.

(** One unit of fuel per node of the map is enough for every call. *)
Definition processRoots (nodeMap : gmap attr HierarchyNode) (hierarchy : list HierarchyNode)
  : option GenState :=
  processRootsWith (size nodeMap) nodeMap hierarchy.

(** [scriptArray] as it stands when it is serialized. *)
Definition scriptRecords (ns : list DiagramNode) (conns : list Connection)
  : option (list jsobject) :=
  let '(nodeMap, hierarchy) := buildHierarchy ns conns in
  match processRoots nodeMap hierarchy with
  | Some st => Some (scriptArray st ++ fixedProcessRecords)
  | None => None
  end.

(** The records the traversal pushed for the nodes of the diagram. *)
Definition emittedRecords (ns : list DiagramNode) (conns : list Connection)
  : option (list jsobject) :=
  let '(nodeMap, hierarchy) := buildHierarchy ns conns in
  match processRoots nodeMap hierarchy with
  | Some st => Some (drop 2 (scriptArray st))
  | None => None
  end.

(** [toLocaleString('he-IL')] of the current date, and [Date.now()]. *)
Variable timestamp : string.
Variable now : nat.

Definition generateCommboxXML (parsedData : ParsedData) : option string :=
  match scriptRecords (nodes parsedData) (connections parsedData) with
  | Some records =>
      let scriptValue := Json.stringify (JArr (map JObj records)) in
      Some (envelope (escapeXml scriptValue) timestamp now)
  | None => None
  end.

End Generator.

(** ** Exceptions *)

(** A thrown value, as far as the code looks at it: its [message], if any. *)
Record Exn := mkExn { message : attr }.

(** [new Error(msg)] *)
Definition Error (msg : string) : Exn := {| message := Some msg |}.

(** A [TypeError] raised by the engine on a property read of [null]. *)
Definition TypeError : Exn := {| message := Some "Cannot read properties of null" |}.

(** The outcome of a computation that may throw. *)
Inductive Completion (A : Type) : Type :=
  | Return (a : A)
  | Throw (e : Exn).

Arguments Return {A} a.
Arguments Throw {A} e.

#[global] Instance Completion_bind : MBind Completion := λ A B k c,
  match c with
  | Return a => k a
  | Throw e => Throw e
  end.

(** [try { body } catch (error) { handler(error) }] *)
Definition try_catch {A : Type} (body : Completion A) (handler : Exn → Completion A)
  : Completion A :=
  match body with
  | Return a => Return a
  | Throw e => handler e
  end.

(** ** Decompressor *)

Section Decompressor.

(** [String.prototype.trim] *)
Variable trim : string → string.
(** [Buffer.from(s, 'base64')]: lenient, it answers on every string. *)
Variable Buffer_from_base64 : string → list byte.
(** [pako.inflateRaw(bytes, { to: 'string' })] *)
Variable inflateRaw : list byte → Completion string.
(** [decodeURIComponent] *)
Variable decodeURIComponent : string → Completion string.

Definition decompressError : Exn := Error "Failed to decompress Draw.io file".

Definition decodeDrawio (compressedContent : string) : Completion string :=
  try_catch
    (let trimmed := trim compressedContent in
     let decoded := Buffer_from_base64 trimmed in
     decompressed ← inflateRaw decoded;
     urlDecoded ← decodeURIComponent decompressed;
     Return urlDecoded)
    (λ _, Throw decompressError).

End Decompressor.

(** ** Graph extractor *)

(** What [xml2js] builds for one element with its default options: the
    text alone when the element has neither attributes nor child
    elements, otherwise an object with the attributes under [$], the text
    under [_] and one array per child element name. *)
Inductive Xml : Type :=
  | XText (text : string)
  | XElem (attrs : option (list (string * string))) (text : option string)
          (children : list (string * list Xml)).

(** The result of [parseStringPromise]: [null], or an object with the
    root element under its name. *)
Abbreviation Document := (option (string * Xml)).

(** [o[k]] on a list of string properties. *)
Fixpoint assoc {A : Type} (o : list (string * A)) (k : string) : option A :=
  match o with
  | [] => None
  | (k', v) :: o' => if String.eqb k' k then Some v else assoc o' k
  end.

(** [result[name]]: a [TypeError] on [null]. *)
Definition root_prop (result : Document) (name : string) : Completion (option Xml) :=
  match result with
  | None => Throw TypeError
  | Some (rootName, v) => Return (if String.eqb rootName name then Some v else None)
  end.

(** [v[name]] for the name of a child element. *)
Definition child (v : Xml) (name : string) : option (list Xml) :=
  match v with
  | XText _ => None
  | XElem _ _ children => assoc children name
  end.

(** [v?.[name]] *)
Definition child_opt (v : option Xml) (name : string) : option (list Xml) :=
  v ≫= λ x, child x name.

(** [v.$ || {}] *)
Definition attrs_of (v : Xml) : list (string * string) :=
  match v with
  | XElem (Some a) _ _ => a
  | _ => []
  end.

(** Truthiness of an element value. *)
Definition truthy_xml (v : option Xml) : bool :=
  match v with
  | None => false
  | Some (XText t) => truthy t
  | Some (XElem _ _ _) => true
  end.

(** [graphModel.mxGraphModel?.root?.[0]?.mxCell || []] *)
Definition cells_of (graphModel : Document) : Completion (list Xml) :=
  model ← root_prop graphModel "mxGraphModel";
  Return (default [] (child_opt (child_opt model "root" ≫= head) "mxCell")).

Definition node_of_cell (cell : Xml) : list DiagramNode :=
  let attrs := attrs_of cell in
  if bool_decide (assoc attrs "vertex" = Some "1") || truthy_opt (assoc attrs "value")
  then [ {| node_id := assoc attrs "id";
            node_value := default "" (assoc attrs "value");
            node_style := default "" (assoc attrs "style");
            node_parent := assoc attrs "parent";
            node_geometry := default [] (attrs_of <$> (child cell "mxGeometry" ≫= head)) |} ]
  else [].

Definition connection_of_cell (cell : Xml) : list Connection :=
  let attrs := attrs_of cell in
  if bool_decide (assoc attrs "edge" = Some "1")
  then [ {| conn_id := assoc attrs "id";
            conn_source := assoc attrs "source";
            conn_target := assoc attrs "target";
            conn_value := default "" (assoc attrs "value") |} ]
  else [].

(** [extractNodes]: an exception inside the [try] leaves [nodes] as it is. *)
Definition extractNodes (graphModel : Document) : list DiagramNode :=
  match cells_of graphModel with
  | Return cells => flat_map node_of_cell cells
  | Throw _ => []
  end.

Definition extractConnections (graphModel : Document) : list Connection :=
  match cells_of graphModel with
  | Return cells => flat_map connection_of_cell cells
  | Throw _ => []
  end.

Section Parser.

Variable trim : string → string.
Variable Buffer_from_base64 : string → list byte.
Variable inflateRaw : list byte → Completion string.
Variable decodeURIComponent : string → Completion string.
(** [parser.parseStringPromise], awaited. *)
Variable parseString : string → Completion Document.

(** The diagram element of the outer document. *)
Definition findDiagram (result : Document) : Completion (option Xml) :=
  mxfile ← root_prop result "mxfile";
  if truthy_xml mxfile && bool_decide (is_Some (child_opt mxfile "diagram"))
  then Return (child_opt mxfile "diagram" ≫= head)
  else
    diagram ← root_prop result "diagram";
    Return (if truthy_xml diagram then diagram else None).

(** The compressed text of the diagram element. *)
Definition compressedDataOf (diagramContent : Xml) : attr :=
  match diagramContent with
  | XText t => Some t
  | XElem _ t _ => if truthy_opt t then t else None
  end.

(** The part of [parseDrawioFile] that runs before [decodeDrawio]. *)
Definition findCompressedData (fileContent : string) : Completion string :=
  result ← parseString fileContent;
  diagramContent ← findDiagram result;
  if negb (truthy_xml diagramContent)
  then Throw (Error "Invalid Draw.io file format - no diagram found")
  else
    let compressedData := diagramContent ≫= compressedDataOf in
    match compressedData with
    | Some data =>
        if truthy data then Return data
        else Throw (Error "No compressed data found in diagram")
    | None => Throw (Error "No compressed data found in diagram")
    end.

Definition parseDrawioFile (fileContent : string) : Completion ParsedData :=
  try_catch
    (compressedData ← findCompressedData fileContent;
     decodedContent ← decodeDrawio trim Buffer_from_base64 inflateRaw decodeURIComponent
                        compressedData;
     graphModel ← parseString decodedContent;
     let nodes := extractNodes graphModel in
     let connections := extractConnections graphModel in
     Return {| nodes := nodes; connections := connections;
               mxGraphModelXml := decodedContent |})
    (λ error, Throw error).

End Parser.

(** ** The conversion endpoint *)

(** The body of the JSON response. *)
Inductive Response : Type :=
  | Success (xml mxGraphModelXml filename mxGraphModelFilename : string)
            (nodesCount connectionsCount : nat)
  | Failure (status : nat) (error : string).

(** The [xml] field of a response, [None] when it has none. *)
Definition response_xml (r : Response) : option string :=
  match r with
  | Success xml _ _ _ _ _ => Some xml
  | Failure _ _ => None
  end.

(** The [error] field of a response. *)
Definition response_error (r : Response) : option string :=
  match r with
  | Success _ _ _ _ _ _ => None
  | Failure _ error => Some error
  end.

Section Endpoint.

Variable toLowerCase : string → string.
Variable trim : string → string.
Variable Buffer_from_base64 : string → list byte.
Variable inflateRaw : list byte → Completion string.
Variable decodeURIComponent : string → Completion string.
Variable parseString : string → Completion Document.
(** The clock: the localized date and the three readings of [Date.now()]. *)
Variable timestamp : string.
Variables now_xml now_filename now_model : nat.

(** [error.message || fallback] *)
Definition message_or (e : Exn) (fallback : string) : string :=
  match message e with
  | Some m => or_else m fallback
  | None => fallback
  end.

(** The handler of [POST /api/converter/convert]; [file] is the text of
    the uploaded file, [None] when no file was uploaded.  The answer is
    [None] only if the script generation does not return. *)
Definition convert (file : option string) : option Response :=
  match file with
  | None => Some (Failure 400 "לא הועלה קובץ")
  | Some fileContent =>
      match parseDrawioFile trim Buffer_from_base64 inflateRaw decodeURIComponent
              parseString fileContent with
      | Throw error => Some (Failure 500 (message_or error "שגיאה בעיבוד הקובץ"))
      | Return parsedData =>
          match generateCommboxXML toLowerCase timestamp now_xml parsedData with
          | Some xml =>
              Some (Success xml (mxGraphModelXml parsedData)
                      ("commbox_bot_" +:+ pretty now_filename +:+ ".xml")
                      ("mxGraphModel_" +:+ pretty now_model +:+ ".xml")
                      (length (nodes parsedData)) (length (connections parsedData)))
          | None => None
          end
      end
  end.

End Endpoint.

(** ** Upload filter and error handler *)

(** [String.prototype.endsWith] *)
Fixpoint endsWith (s suffix : string) : bool :=
  String.eqb s suffix
  || match s with
     | EmptyString => false
     | String _ s' => endsWith s' suffix
     end.

(** What the filter reads of an uploaded file. *)
Record UploadedFile := mkUploadedFile { mimetype : string; originalname : string }.

Definition filterError : Exn := Error "רק קבצי XML ו-Draw.io מותרים".

(** [fileFilter]: [cb(null, true)] or [cb(new Error(...))]. *)
Definition fileFilter (file : UploadedFile) : Completion bool :=
  if String.eqb (mimetype file) "text/xml"
     || String.eqb (mimetype file) "application/xml"
     || endsWith (originalname file) ".drawio"
     || endsWith (originalname file) ".xml"
  then Return true
  else Throw filterError.

(** An error that reaches the error-handling middleware: a
    [multer.MulterError] with its code, or any other thrown value. *)
Inductive ServerError : Type :=
  | MulterError (code : string) (e : Exn)
  | OtherError (e : Exn).

(** The error-handling middleware. *)
Definition errorHandler (error : ServerError) : Response :=
  match error with
  | MulterError code e =>
      if String.eqb code "LIMIT_FILE_SIZE"
      then Failure 400 "הקובץ גדול מדי. הגודל המקסימלי הוא 10MB"
      else Failure 500 (message_or e "שגיאת שרת")
  | OtherError e => Failure 500 (message_or e "שגיאת שרת")
  end.

(** ** The classification rules, as the specification lists them *)

Inductive RuleSubject : Set := Label | Style.

Record Rule := mkRule {
  rule_subject : RuleSubject;
  rule_keywords : list string;
  rule_role : NodeType
}.

(** The eight rules in their order of precedence. *)
Definition rules : list Rule :=
  [ mkRule Label ["מעבר לנציג"; "transfer"; "agent"] NT_transfer;
    mkRule Label ["לא ידוע"; "unknown"] NT_unknown;
    mkRule Label ["שגיאה"; "error"] NT_error;
    mkRule Label ["סיום"; "סגירה"; "end"; "close"] NT_end;
    mkRule Label ["התחלה"; "start"] NT_start;
    mkRule Label ["קלט"; "input"] NT_input;
    mkRule Style ["ellipse"; "circle"] NT_start;
    mkRule Style ["rhombus"; "diamond"] NT_decision ].

Section Rules.

Variable toLowerCase : string → string.

(** The text a rule looks at. *)
Definition subject_text (r : Rule) (node : HierarchyNode) : string :=
  match rule_subject r with
  | Label => h_value node
  | Style => h_style node
  end.

(** A rule matches when one of its keywords occurs in the lower-cased text. *)
Definition rule_matches (r : Rule) (node : HierarchyNode) : Prop :=
  ∃ k, k ∈ rule_keywords r ∧ occurs_in k (toLowerCase (subject_text r node)).

Definition rule_matchesb (r : Rule) (node : HierarchyNode) : bool :=
  existsb (includes (toLowerCase (subject_text r node))) (rule_keywords r).

(** The role of the first rule that matches, [NT_message] when none does. *)
Definition first_match (node : HierarchyNode) : NodeType :=
  match list_find (λ r, rule_matchesb r node = true) rules with
  | Some (_, r) => rule_role r
  | None => NT_message
  end.

End Rules.

(** ** The escaped form of a script, character by character *)

(** The entity that stands for a reserved character. *)
Definition entity (c : ascii) : string :=
  if Ascii.eqb c "&" then "&amp;"
  else if Ascii.eqb c "<" then "&lt;"
  else if Ascii.eqb c ">" then "&gt;"
  else if Ascii.eqb c Json.dquote then "&quot;"
  else if Ascii.eqb c "'" then "&apos;"
  else String c EmptyString.

Fixpoint escape_chars (s : string) : string :=
  match s with
  | EmptyString => EmptyString
  | String c s' => entity c +:+ escape_chars s'
  end.

Definition reserved : list ascii := ["&"; "<"; ">"; Json.dquote; "'"]%char.

Definition entities : list string := ["&amp;"; "&lt;"; "&gt;"; "&quot;"; "&apos;"].

(** A string made of unreserved characters and entities only. *)
Inductive Escaped : string → Prop :=
  | Escaped_nil : Escaped EmptyString
  | Escaped_plain c s : c ∉ reserved → Escaped s → Escaped (String c s)
  | Escaped_entity e s : e ∈ entities → Escaped s → Escaped (e +:+ s).

(** ** Vocabulary of the properties *)

(** Every object of the map sits under its own id. *)
Definition keyed (nodeMap : gmap attr HierarchyNode) : Prop :=
  ∀ k n, nodeMap !! k = Some n → h_id n = k.

(** One call of [processNode] that pushed a record: the node and the
    parent id it was called with. *)
Abbreviation Visit := (HierarchyNode * string)%type.

(** The id of the [i]-th record pushed by the traversal, counting from 0. *)
Definition nth_id (i : nat) : string := "n_" +:+ pretty (2 + i).

(** A parent id handed to the [n]-th visit: the root node, or the id of an
    earlier visit. *)
Definition known_parent (n : nat) (parentId : string) : Prop :=
  parentId = "node_0" ∨ ∃ j, j < n ∧ parentId = nth_id j.

Section TraversalSpec.

Variable toLowerCase : string → string.
Variable nodeMap : gmap attr HierarchyNode.

(** The record pushed by the [i]-th visit. *)
Definition record_of (i : nat) (v : Visit) : jsobject :=
  convertToCommboxNode toLowerCase v.1 (2 + i) v.2.

(** The state reached after the visits [visits], in this order. *)
Record Traced (visits : list Visit) (st : GenState) : Prop := {
  traced_script : scriptArray st = [configRecord; rootRecord] ++ imap record_of visits;
  traced_index : nodeIndex st = 2 + length visits;
  traced_set : processedNodes st = (h_id ∘ fst) <$> visits;
  traced_nodup : NoDup (processedNodes st);
  traced_parents : ∀ i v, visits !! i = Some v → known_parent i v.2;
  traced_nodes : ∀ v, v ∈ visits → nodeMap !! h_id v.1 = Some v.1
}.

(** The number of nodes of the map that are not processed yet. *)
Definition pending (st : GenState) : nat :=
  size (dom nodeMap ∖ list_to_set (processedNodes st) : gset attr).

End TraversalSpec.

(** Each record points at a record that stands before it, or at [#]. *)
Definition parents_precede (records : list jsobject) : Prop :=
  ∀ i o p, records !! i = Some o → prop o "parent" = Some p →
    p = JStr "#" ∨ ∃ j o', j < i ∧ records !! j = Some o' ∧ prop o' "id" = Some p.

(** The [id]s of the records that have one. *)
Definition record_ids (records : list jsobject) : list json :=
  omap (λ o, prop o "id") records.

(** Two records at different places carry the id [ident]. *)
Definition id_collision (records : list jsobject) (ident : string) : Prop :=
  ∃ i j o o', i < j ∧ records !! i = Some o ∧ records !! j = Some o'
              ∧ prop o "id" = Some (JStr ident) ∧ prop o' "id" = Some (JStr ident).

Section Compressor.

Variable encodeURIComponent : string → string.
Variable deflateRaw : string → list byte.
Variable base64_encode : list byte → string.

(** The compression that [decodeDrawio] reverses, in the words of the
    specification: percent-encode, raw deflate, base64. *)
Definition compress (markup : string) : string :=
  base64_encode (deflateRaw (encodeURIComponent markup)).

End Compressor.

(** ** Reading the script back from the envelope *)

(** [s] without its prefix [p], when it starts with [p]. *)
Fixpoint strip_prefix (p s : string) : option string :=
  match p, s with
  | EmptyString, _ => Some s
  | String _ _, EmptyString => None
  | String a p', String b s' => if Ascii.eqb a b then strip_prefix p' s' else None
  end.

(** The text that follows the first occurrence of [marker] in [s]. *)
Fixpoint after_first (marker s : string) : option string :=
  match strip_prefix marker s with
  | Some rest => Some rest
  | None =>
      match s with
      | EmptyString => None
      | String _ s' => after_first marker s'
      end
  end.

(** The text that stands before the first occurrence of the character [c]. *)
Fixpoint until_char (c : ascii) (s : string) : option string :=
  match s with
  | EmptyString => None
  | String x s' => if Ascii.eqb x c then Some EmptyString else String x <$> until_char c s'
  end.

(** The opening of the attribute that holds the script. *)
Definition script_marker : string := "<SCRIPT Value=" +:+ String Json.dquote EmptyString.

(** The value of the [Value] attribute of the [SCRIPT] element, as a
    reader of the markup finds it: the text between the opening of the
    attribute and the next double quote. *)
Definition script_value (xml : string) : option string :=
  after_first script_marker xml ≫= until_char Json.dquote.

(** ** Vocabulary of the hierarchy properties *)

(** The ids of the extracted nodes, in their order. *)
Definition node_ids (ns : list DiagramNode) : list attr := node_id <$> ns.

(** The nodes that carry the id [k]. *)
Definition nodes_with_id (ns : list DiagramNode) (k : attr) : list DiagramNode :=
  filter (λ node, node_id node = k) ns.

(** A connection whose two ends are ids of extracted nodes. *)
Definition resolves (ns : list DiagramNode) (conn : Connection) : Prop :=
  conn_source conn ∈ node_ids ns ∧ conn_target conn ∈ node_ids ns.

(** The resolving connections that leave [k], and those that enter it, in
    the order of the connections. *)
Definition outgoing (ns : list DiagramNode) (conns : list Connection) (k : attr)
  : list Connection :=
  filter (λ conn, conn_source conn = k ∧ resolves ns conn) conns.

Definition incoming (ns : list DiagramNode) (conns : list Connection) (k : attr)
  : list Connection :=
  filter (λ conn, conn_target conn = k ∧ resolves ns conn) conns.

(** The hierarchy node that the three loops leave for [node] under the id
    [k]: its children are the targets of the connections that leave [k],
    and its parent is the source of the last connection that enters [k],
    or the [parent] attribute of the diagram when none does. *)
Definition linked (ns : list DiagramNode) (conns : list Connection) (k : attr)
    (node : DiagramNode) : HierarchyNode :=
  {| h_id := node_id node; h_value := node_value node; h_style := node_style node;
     h_parent := default (node_parent node) (conn_source <$> last (incoming ns conns k));
     h_geometry := node_geometry node;
     h_children := conn_target <$> outgoing ns conns k |}.

(** ** Vocabulary of the traversal properties *)

(** The ids that the children lists reach from the roots, through nodes of
    the map. *)
Inductive reachable (nodeMap : gmap attr HierarchyNode) (roots : list HierarchyNode)
  : attr → Prop :=
  | reachable_root h : h ∈ roots → reachable nodeMap roots (h_id h)
  | reachable_child k h c :
      reachable nodeMap roots k → nodeMap !! k = Some h → c ∈ h_children h →
      is_Some (nodeMap !! c) → reachable nodeMap roots c.

(** How the [i]-th visit hangs in the tree: under [node_0] for a root, or
    under the record of an earlier visit whose node lists it as a child. *)
Definition attached (roots : list HierarchyNode) (visits : list Visit) (i : nat) (v : Visit)
  : Prop :=
  (v.2 = "node_0" ∧ v.1 ∈ roots)
  ∨ ∃ j w, j < i ∧ visits !! j = Some w ∧ v.2 = nth_id j ∧ h_id v.1 ∈ h_children w.1.

(** From [a] to [b] the processed set grows, and every node that is new in
    [b] has all its children of the map processed in [b]. *)
Definition explores (nodeMap : gmap attr HierarchyNode) (a b : GenState) : Prop :=
  processedNodes a ⊆ processedNodes b
  ∧ ∀ k h c, k ∈ processedNodes b → k ∉ processedNodes a →
             nodeMap !! k = Some h → c ∈ h_children h → is_Some (nodeMap !! c) →
             c ∈ processedNodes b.

(** The hierarchy node under the id [k] is a root. *)
Definition root_at (nodeMap : gmap attr HierarchyNode) (k : attr) : bool :=
  match nodeMap !! k with
  | Some h => is_root h
  | None => false
  end.

(** An id that the root test cannot take for a missing parent or for one
    of the two layer cells. *)
Definition proper_id (k : attr) : Prop :=
  truthy_opt k = true ∧ k ≠ Some "0" ∧ k ≠ Some "1".

(** The script of a diagram without nodes. *)
Definition emptyScript : list jsobject := [configRecord; rootRecord] ++ fixedProcessRecords.

(** A document whose root element is not [mxGraphModel], or no document
    at all. *)
Definition no_graph_model (graphModel : Document) : Prop :=
  match graphModel with
  | None => True
  | Some (name, _) => name ≠ "mxGraphModel"
  end.

(** ** Example diagrams and libraries *)

Definition vertex (i v st p : string) : DiagramNode :=
  {| node_id := Some i; node_value := v; node_style := st; node_parent := Some p;
     node_geometry := [] |}.

Definition edge (i a b : string) : Connection :=
  {| conn_id := Some i; conn_source := Some a; conn_target := Some b; conn_value := "" |}.

(** Two nodes on the default layer, the first pointing at the second. *)
Definition two_nodes : list DiagramNode :=
  [vertex "2" "Welcome" "rounded=1;" "1"; vertex "3" "Menu" "rounded=1;" "1"].

Definition two_nodes_edges : list Connection := [edge "4" "2" "3"].

(** A container with two nodes drawn inside it, the first pointing at the
    second. *)
Definition container_nodes : list DiagramNode :=
  [vertex "2" "Flow" "swimlane;" "1"; vertex "3" "Welcome" "rounded=1;" "2";
   vertex "4" "Menu" "rounded=1;" "2"].

Definition container_edges : list Connection := [edge "5" "3" "4"].

(** A root that points into a cycle between two nodes. *)
Definition cycle_nodes : list DiagramNode :=
  [vertex "2" "R" "" "1"; vertex "3" "A" "" "1"; vertex "4" "B" "" "1"].

Definition cycle_edges : list Connection :=
  [edge "5" "2" "3"; edge "6" "3" "4"; edge "7" "4" "3"; edge "8" "2" "4"].

(** A rhombus labelled with an error keyword. *)
Definition rhombus_error_node : HierarchyNode :=
  {| h_id := Some "7"; h_value := "System ERROR"; h_style := "rhombus;whiteSpace=wrap;";
     h_parent := Some "1"; h_geometry := []; h_children := [] |}.

(** A node whose label holds the three characters of the escaping scenario. *)
Definition markup_label_node : HierarchyNode :=
  {| h_id := Some "2"; h_value := "a<b&" +:+ String Json.dquote "c";
     h_style := ""; h_parent := Some "1"; h_geometry := []; h_children := [] |}.

(** A diagram of one node with the label of the escaping scenario. *)
Definition markup_label_diagram : ParsedData :=
  {| nodes := [vertex "2" (h_value markup_label_node) "" "1"]; connections := [];
     mxGraphModelXml := "" |}.

(** What the parser answers for an export with one compressed diagram. *)
Definition sample_document : Document :=
  Some ("mxfile",
        XElem None None [("diagram", [XElem (Some [("name", "Page-1")]) (Some "AAAA") []])]).

Definition sample_parser (s : string) : Completion Document := Return sample_document.

(** Codecs that store their input as it is, and an inflation that rejects
    its input. *)
Definition stored_inflate (b : list byte) : Completion string :=
  Return (string_of_list_byte b).

Definition failing_inflate (b : list byte) : Completion string :=
  Throw (Error "invalid stored block lengths").

Definition plain_decode (s : string) : Completion string := Return s.

(** Three nodes on the default layer that point at each other in a ring. *)
Definition ring_nodes : list DiagramNode :=
  [vertex "2" "A" "" "1"; vertex "3" "B" "" "1"; vertex "4" "C" "" "1"].

Definition ring_edges : list Connection :=
  [edge "5" "2" "3"; edge "6" "3" "4"; edge "7" "4" "2"].

(** A connector that carries a label. *)
Definition labelled_edge_cell : Xml :=
  XElem (Some [("id", "5"); ("value", "yes"); ("edge", "1"); ("parent", "1");
               ("source", "2"); ("target", "3")]) None [].

Definition labelled_edge_cells : list Xml :=
  [XElem (Some [("id", "0")]) None [];
   XElem (Some [("id", "1"); ("parent", "0")]) None [];
   labelled_edge_cell].

Definition labelled_edge_model : Document :=
  Some ("mxGraphModel",
        XElem None None [("root", [XElem None None [("mxCell", labelled_edge_cells)]])]).

(** An export that was saved without compression: the diagram element
    holds the graph model as a child element and no text. *)
Definition uncompressed_document : Document :=
  Some ("mxfile",
        XElem None None
          [("diagram", [XElem (Some [("name", "Page-1")]) None
                          [("mxGraphModel", [XElem None None []])]])]).

Definition uncompressed_parser (s : string) : Completion Document :=
  Return uncompressed_document.

(** An export with two pages. *)
Definition two_page_document : Document :=
  Some ("mxfile",
        XElem None None
          [("diagram", [XElem (Some [("name", "Page-1")]) (Some "AAAA") []; XText "BBBB"])]).

Definition two_page_parser (s : string) : Completion Document := Return two_page_document.

(** Some other markup. *)
Definition svg_document : Document := Some ("svg", XElem None None []).

Definition svg_parser (s : string) : Completion Document := Return svg_document.

(** A parser that answers [sample_document] for the uploaded text and
    the markup of some other document for everything else. *)
Definition staged_parser (s : string) : Completion Document :=
  if String.eqb s "upload" then Return sample_document else Return svg_document.

(** The same label on a rhombus and on a plain box. *)
Definition menu_rhombus : HierarchyNode :=
  {| h_id := Some "7"; h_value := "Menu"; h_style := "rhombus;whiteSpace=wrap;";
     h_parent := Some "1"; h_geometry := []; h_children := [] |}.

Definition menu_box : HierarchyNode :=
  {| h_id := Some "8"; h_value := "Menu"; h_style := "rounded=1;";
     h_parent := Some "2"; h_geometry := []; h_children := [Some "7"] |}.

(** * Properties *)

(** Membership in a list that is written out. *)
Ltac in_list := repeat first [apply list_elem_of_here | apply list_elem_of_further].
(** Non-membership in a list that is written out. *)
Ltac not_in_list :=
  rewrite ?not_elem_of_cons; repeat split; try apply not_elem_of_nil; try congruence; try done.
(** Case analysis on membership in a list that is written out. *)
Ltac cases_in_list H :=
  repeat (apply elem_of_cons in H as [H|H]); [..|by apply elem_of_nil in H].


(** ** Strings *)

Section StringFacts.

Lemma append_nil_l (s : string) : "" +:+ s = s.
Proof. reflexivity. Qed.

Lemma append_cons (c : ascii) (s t : string) : String c s +:+ t = String c (s +:+ t).
Proof. reflexivity. Qed.

Lemma append_nil_r (s : string) : s +:+ "" = s.
Proof. induction s as [|c s IH]; [done | by rewrite append_cons, IH]. Qed.

Lemma append_assoc (a b c : string) : (a +:+ b) +:+ c = a +:+ (b +:+ c).
Proof. induction a as [|x a IH]; [done | by rewrite !append_cons, IH]. Qed.

Lemma startsWith_spec (s p : string) :
  startsWith s p = true ↔ ∃ b, s = p +:+ b.
Proof.
  revert s. induction p as [|a p IH]; intros s.
  - destruct s; split; eauto.
  - destruct s as [|b s].
    + split; [done | intros [x Hx]; discriminate].
    + cbn [startsWith]. destruct (Ascii.eqb_spec a b) as [->|Hne].
      * rewrite IH. split; intros [x Hx]; exists x.
        -- by rewrite append_cons, Hx.
        -- rewrite append_cons in Hx. by injection Hx.
      * split; [done | intros [x Hx]; rewrite append_cons in Hx; congruence].
Qed.

Lemma includes_spec (s sub : string) :
  includes s sub = true ↔ occurs_in sub s.
Proof.
  split.
  - induction s as [|c s IH]; cbn [includes]; rewrite ?orb_false_r, ?orb_true_iff.
    + intros [b Hb]%startsWith_spec. by exists "", b.
    + intros [[b Hb]%startsWith_spec | [a [b Hab]]%IH].
      * by exists "", b.
      * exists (String c a), b. by rewrite append_cons, Hab.
  - intros [a [b Hab]]. revert s Hab.
    induction a as [|c a IH]; intros s Hab.
    + rewrite append_nil_l in Hab.
      assert (startsWith s sub = true) as Hs by (apply startsWith_spec; eauto).
      destruct s; cbn [includes]; rewrite Hs; done.
    + rewrite append_cons in Hab. subst s. cbn [includes].
      rewrite (IH _ eq_refl). apply orb_true_r.
Qed.

Lemma includes_false (s sub : string) :
  includes s sub = false ↔ ¬ occurs_in sub s.
Proof. rewrite <- includes_spec. destruct (includes s sub); naive_solver. Qed.

Lemma replaceAll_app (c : ascii) (rep a b : string) :
  replaceAll c rep (a +:+ b) = replaceAll c rep a +:+ replaceAll c rep b.
Proof.
  induction a as [|x a IH]; [done|].
  rewrite append_cons. cbn [replaceAll]. by rewrite IH, append_assoc.
Qed.

End StringFacts.

(** ** Node classifier *)

Section ClassifierFacts.

Variable toLowerCase : string → string.

Local Abbreviation detect := (detectNodeType toLowerCase).
Local Abbreviation matches := (rule_matches toLowerCase).

Lemma or_else_empty (s : string) : or_else s "" = s.
Proof. by destruct s. Qed.

Lemma rule_matchesb_spec (r : Rule) (node : HierarchyNode) :
  rule_matchesb toLowerCase r node = true ↔ matches r node.
Proof.
  unfold rule_matchesb, rule_matches. rewrite existsb_exists.
  split; intros (k & Hk & Hin); exists k.
  - split; [by apply list_elem_of_In | by apply includes_spec].
  - split; [by apply list_elem_of_In | by apply includes_spec].
Qed.

Lemma rule_matchesb_false (r : Rule) (node : HierarchyNode) :
  rule_matchesb toLowerCase r node = false → ¬ matches r node.
Proof. rewrite <- rule_matchesb_spec. by intros ->. Qed.

(** The chain of tests of [detectNodeType] computes the first matching
    rule of the table. *)
Lemma detectNodeType_first_match (node : HierarchyNode) :
  detect node = first_match toLowerCase node.
Proof.
  unfold detectNodeType, first_match, rules, rule_matchesb, subject_text.
  rewrite !or_else_empty. simpl.
  repeat match goal with
         | |- context [includes ?a ?b] => destruct (includes a b); simpl; try reflexivity
         end.
Qed.

Lemma detectNodeType_rule (node : HierarchyNode) (i : nat) (r : Rule) :
  rules !! i = Some r →
  matches r node →
  (∀ j r', j < i → rules !! j = Some r' → ¬ matches r' node) →
  detect node = rule_role r.
Proof.
  intros Hi Hr Hfirst. rewrite detectNodeType_first_match. unfold first_match.
  assert (list_find (λ r, rule_matchesb toLowerCase r node = true) rules = Some (i, r)) as ->; [|done].
  apply list_find_Some. split_and!; [done | by apply rule_matchesb_spec |].
  intros j y Hj Hlt Hy%rule_matchesb_spec. by eapply Hfirst.
Qed.

Lemma detectNodeType_default (node : HierarchyNode) :
  (∀ r, r ∈ rules → ¬ matches r node) → detect node = NT_message.
Proof.
  intros Hnone. rewrite detectNodeType_first_match. unfold first_match.
  assert (list_find (λ r, rule_matchesb toLowerCase r node = true) rules = None) as ->; [|done].
  apply list_find_None, Forall_forall. intros r Hr Hm%rule_matchesb_spec.
  by eapply Hnone.
Qed.

(** C4. Classification looks at the lower-cased label and style only
    (it is case-insensitive), and the role is that of the first rule,
    in the order transfer, unknown, error, end, start, input keywords of
    the label, then ellipse/circle (start) and rhombus/diamond
    (decision) of the style, that matches; a node no rule matches is a
    message.  In particular a label with an error keyword is never
    classified as a decision, whatever the style (a rhombus included),
    and is an error node unless a transfer or unknown keyword, which
    come first, occurs in the label too. *)
Theorem detectNodeType_precedence (node : HierarchyNode) :
  (∀ i r, rules !! i = Some r → matches r node →
          (∀ j r', j < i → rules !! j = Some r' → ¬ matches r' node) →
          detect node = rule_role r)
  ∧ ((∀ r, r ∈ rules → ¬ matches r node) → detect node = NT_message)
  ∧ (∀ k, k ∈ ["שגיאה"; "error"] → occurs_in k (toLowerCase (h_value node)) →
          detect node ≠ NT_decision
          ∧ (¬ matches (mkRule Label ["מעבר לנציג"; "transfer"; "agent"] NT_transfer) node →
             ¬ matches (mkRule Label ["לא ידוע"; "unknown"] NT_unknown) node →
             detect node = NT_error))
  ∧ (∀ node', toLowerCase (h_value node') = toLowerCase (h_value node) →
              toLowerCase (h_style node') = toLowerCase (h_style node) →
              detect node' = detect node).
Proof.
  split_and!.
  - intros i r. apply detectNodeType_rule.
  - apply detectNodeType_default.
  - intros k Hk Hocc.
    assert (matches (mkRule Label ["שגיאה"; "error"] NT_error) node) as Herr
      by (exists k; done).
    split.
    + apply rule_matchesb_spec in Herr.
      unfold rule_matchesb, subject_text in Herr. simpl in Herr.
      unfold detectNodeType. rewrite !or_else_empty.
      repeat match goal with
             | |- context [includes ?a ?b] => destruct (includes a b); simpl in *; try done
             end.
    + intros H0 H1. apply (detectNodeType_rule node 2 _ eq_refl Herr).
      intros [|[|j]] r' Hlt Hr'; [| |lia]; by injection Hr' as <-.
  - intros node' Hv Hs. unfold detectNodeType.
    by rewrite !or_else_empty, Hv, Hs.
Qed.

(** A rhombus labelled with an error keyword gets one of the three roles
    that come from the label and precede the shapes. *)
Corollary error_label_beats_rhombus (node : HierarchyNode) :
  occurs_in "error" (toLowerCase (h_value node)) →
  occurs_in "rhombus" (toLowerCase (h_style node)) →
  detect node ∈ [NT_transfer; NT_unknown; NT_error].
Proof.
  intros Hocc%includes_spec _. unfold detectNodeType. rewrite !or_else_empty.
  repeat match goal with
         | |- context [includes ?a ?b] =>
             destruct (includes a b); simpl; try (set_solver); try done
         end.
Qed.

End ClassifierFacts.

Lemma detectNodeType_precedence_witness :
  detectNodeType toLowerCase_ascii rhombus_error_node = NT_error.
Proof.
  destruct (detectNodeType_precedence toLowerCase_ascii rhombus_error_node)
    as (_ & _ & Herror & _).
  apply (Herror "error").
  - in_list.
  - by exists "system ", "".
  - by apply rule_matchesb_false.
  - by apply rule_matchesb_false.
Defined.

(** ** Escaping *)

Section EscapeFacts.

Lemma escapeXml_app (a b : string) : escapeXml (a +:+ b) = escapeXml a +:+ escapeXml b.
Proof. unfold escapeXml. by rewrite !replaceAll_app. Qed.

Lemma escapeXml_char (c : ascii) : escapeXml (String c "") = entity c.
Proof. by destruct c as [[] [] [] [] [] [] [] []]. Qed.

(** The five successive replacements amount to replacing every character
    by its entity: no replacement text contains a character that a later
    replacement looks for. *)
Lemma escapeXml_charwise (s : string) : escapeXml s = escape_chars s.
Proof.
  induction s as [|c s IH]; [done|].
  change (String c s) with (String c "" +:+ s).
  by rewrite escapeXml_app, escapeXml_char, IH.
Qed.

Lemma entity_cases (c : ascii) :
  (entity c ∈ entities) ∨ ((c ∉ reserved) ∧ entity c = String c EmptyString).
Proof.
  unfold entity, entities, reserved.
  repeat match goal with
         | |- context [Ascii.eqb c ?x] => destruct (Ascii.eqb_spec c x) as [->|?]
         end; try (left; in_list; fail).
  right. split; [not_in_list | done].
Qed.

Lemma escape_chars_Escaped (s : string) : Escaped (escape_chars s).
Proof.
  induction s as [|c s IH]; [constructor|]. cbn [escape_chars].
  destruct (entity_cases c) as [He | [Hc ->]].
  - by apply Escaped_entity.
  - rewrite append_cons, append_nil_l. by apply Escaped_plain.
Qed.

Lemma chars_app (a b : string) : chars (a +:+ b) = chars a ++ chars b.
Proof.
  induction a as [|c a IH]; [done|].
  rewrite append_cons. unfold chars in *. simpl. by rewrite IH.
Qed.

Lemma Escaped_no_markup (s : string) :
  Escaped s → ∀ c, c ∈ chars s → c ∉ ["<"; ">"; Json.dquote; "'"]%char.
Proof.
  induction 1 as [|c0 s Hc0 Hs IH|e s He Hs IH]; intros c Hc.
  - by apply elem_of_nil in Hc.
  - apply elem_of_cons in Hc as [->|Hc]; [|by apply IH].
    unfold reserved in Hc0. rewrite !not_elem_of_cons in Hc0.
    destruct Hc0 as (_ & Hlt & Hgt & Hdq & Hap & _). by not_in_list.
  - rewrite chars_app in Hc. apply elem_of_app in Hc as [Hc|Hc]; [|by apply IH].
    unfold entities in He. cases_in_list He; subst e.
    all: cases_in_list Hc; subst c; not_in_list.
Qed.

Lemma Escaped_ampersand (s : string) :
  Escaped s → ∀ a b, s = a +:+ String "&" b →
  ∃ e b', e ∈ entities ∧ String "&" b = e +:+ b'.
Proof.
  induction 1 as [|c0 s Hc0 Hs IH|e s He Hs IH]; intros a b Heq.
  - by destruct a.
  - destruct a as [|x a].
    + rewrite append_nil_l in Heq. injection Heq as -> _.
      exfalso. apply Hc0. unfold reserved. in_list.
    + rewrite append_cons in Heq. injection Heq as _ ->. by eapply IH.
  - pose proof He as He'. unfold entities in He'. cases_in_list He'; subst e.
    all: repeat (destruct a as [|? a];
           [ rewrite append_nil_l in Heq; first [discriminate Heq | idtac]
           | rewrite ?append_cons, ?append_nil_l in Heq; injection Heq as ? Heq; subst ]).
    all: first [ by eapply IH | eexists _, s; split; [exact He | by rewrite <- Heq] ].
Qed.

(** The escaping scenario: a label with [<], [&] and a double quote. *)
Example markup_label_is_escaped :
  escapeXml (Json.stringify (JStr (h_value markup_label_node)))
  = "&quot;a&lt;b&amp;\&quot;c&quot;".
Proof. by vm_compute. Qed.

End EscapeFacts.

(** ** Hierarchy builder *)

Section HierarchyFacts.

Lemma register_keyed nodeMap node : keyed nodeMap → keyed (register nodeMap node).
Proof.
  intros Hk k n. unfold register. rewrite lookup_insert.
  case_decide; [|by apply Hk]. intros [= <-]. by subst k.
Qed.

Lemma alter_keyed (f : HierarchyNode → HierarchyNode) k nodeMap :
  (∀ n, h_id (f n) = h_id n) → keyed nodeMap → keyed (alter f k nodeMap).
Proof.
  intros Hf Hk k' n. rewrite lookup_alter. case_decide; [|by apply Hk].
  subst k'. destruct (nodeMap !! k) as [n0|] eqn:E; [|done].
  intros [= <-]. rewrite Hf. by apply Hk.
Qed.

Lemma link_keyed nodeMap conn : keyed nodeMap → keyed (link nodeMap conn).
Proof.
  intros Hk. unfold link.
  destruct (nodeMap !! conn_source conn), (nodeMap !! conn_target conn); try done.
  by do 2 (apply alter_keyed; [done|]).
Qed.

Lemma foldl_preserves {A S : Type} (P : S → Prop) (f : S → A → S) (xs : list A) (s : S) :
  (∀ s x, P s → P (f s x)) → P s → P (foldl f s xs).
Proof. intros Hf. revert s. induction xs as [|x xs IH]; intros s Hs; [done|]. apply IH, Hf, Hs. Qed.

Lemma buildHierarchy_keyed ns conns : keyed (buildHierarchy ns conns).1.
Proof.
  unfold buildHierarchy. simpl.
  apply (foldl_preserves keyed); [apply link_keyed|].
  apply (foldl_preserves keyed); [apply register_keyed|].
  intros k n. by rewrite lookup_empty.
Qed.

Lemma find_roots_spec nodeMap ns h :
  h ∈ find_roots nodeMap ns ↔
  ∃ node, node ∈ ns ∧ nodeMap !! node_id node = Some h ∧ is_root h = true.
Proof.
  unfold find_roots. rewrite list_elem_of_omap. split.
  - intros (node & Hin & Hsome). exists node. split; [done|].
    destruct (nodeMap !! node_id node) as [h'|]; [|done].
    destruct (is_root h') eqn:E; [|done]. by injection Hsome as ->.
  - intros (node & Hin & Hl & Hr). exists node. split; [done|]. by rewrite Hl, Hr.
Qed.

Lemma buildHierarchy_roots_in_map ns conns h :
  h ∈ (buildHierarchy ns conns).2 → (buildHierarchy ns conns).1 !! h_id h = Some h.
Proof.
  intros Hh. pose proof (buildHierarchy_keyed ns conns) as Hk.
  unfold buildHierarchy in *. simpl in *.
  apply find_roots_spec in Hh as (node & _ & Hl & _).
  by rewrite (Hk _ _ Hl).
Qed.

(** A connection leaves the parent of every node it does not point at. *)
Lemma link_parent_other nodeMap conn k :
  conn_target conn ≠ k →
  h_parent <$> link nodeMap conn !! k = h_parent <$> nodeMap !! k.
Proof.
  intros Hne. unfold link.
  destruct (nodeMap !! conn_source conn), (nodeMap !! conn_target conn); try done.
  rewrite lookup_alter_ne by done. rewrite lookup_alter.
  case_decide; [|done]. subst k. by destruct (nodeMap !! conn_source conn).
Qed.

(** Without an inbound connection a node keeps the [parent] attribute it
    was extracted with. *)
Lemma no_inbound_keeps_parent ns conns k :
  (∀ conn, conn ∈ conns → conn_target conn ≠ k) →
  h_parent <$> (buildHierarchy ns conns).1 !! k = h_parent <$> foldl register ∅ ns !! k.
Proof.
  unfold buildHierarchy. simpl. generalize (foldl register ∅ ns).
  induction conns as [|c conns IH]; intros m Hno; [done|]. simpl.
  rewrite IH by (intros; apply Hno; by right).
  apply link_parent_other, Hno. by left.
Qed.

End HierarchyFacts.

(** C5, on a diagram with a container.  The node [3] has no inbound
    connection, and its [parent] attribute names the container [2] it is
    drawn in; it is not among the roots, and neither it nor the node [4]
    behind it reaches the script. *)
Theorem grouped_node_is_not_a_root :
  (∀ conn, conn ∈ container_edges → conn_target conn ≠ Some "3")
  ∧ h_id <$> (buildHierarchy container_nodes container_edges).2 = [Some "2"]
  ∧ (h_parent <$> (buildHierarchy container_nodes container_edges).1 !! Some "3")
      = Some (Some "2")
  ∧ (length <$> emittedRecords toLowerCase_ascii container_nodes container_edges) = Some 1.
Proof.
  split_and!; [|by vm_compute..].
  intros conn Hin%list_elem_of_singleton. by subst conn.
Qed.

(** ** Traversal *)

Section TraversalFacts.

Variable toLowerCase : string → string.
Variable nodeMap : gmap attr HierarchyNode.

Local Abbreviation commbox := (convertToCommboxNode toLowerCase).
Local Abbreviation traced := (Traced toLowerCase nodeMap).
Local Abbreviation process := (λ fuel, processNode toLowerCase fuel nodeMap).

Lemma forEachM_invariant {A S : Type} (P : S → Prop) (f : A → S → option S)
    (xs : list A) (s s' : S) :
  (∀ x s1 s2, x ∈ xs → P s1 → f x s1 = Some s2 → P s2) →
  P s → forEachM f xs s = Some s' → P s'.
Proof.
  revert s. induction xs as [|x xs IH]; intros s Hf Hs; simpl.
  - by intros [= <-].
  - destruct (f x s) as [s1|] eqn:E; [|done].
    apply IH; [intros; eapply Hf; eauto; by right|].
    eapply Hf; eauto. by left.
Qed.

Lemma forEachM_total {A S : Type} (P : S → Prop) (f : A → S → option S)
    (xs : list A) (s : S) :
  (∀ x s1, x ∈ xs → P s1 → ∃ s2, f x s1 = Some s2 ∧ P s2) →
  P s → ∃ s', forEachM f xs s = Some s' ∧ P s'.
Proof.
  revert s. induction xs as [|x xs IH]; intros s Hf Hs; simpl.
  - eauto.
  - destruct (Hf x s) as (s1 & -> & Hs1); [by left | done |].
    apply IH; [|done]. intros; apply Hf; [by right | done].
Qed.

Lemma set_has_true s x : set_has s x = true ↔ x ∈ s.
Proof. unfold set_has. by rewrite bool_decide_eq_true. Qed.

Lemma set_has_false s x : set_has s x = false ↔ x ∉ s.
Proof. unfold set_has. by rewrite bool_decide_eq_false. Qed.

Lemma convert_id node index parentId :
  prop_string (commbox node index parentId) "id" = "n_" +:+ pretty index.
Proof.
  unfold convertToCommboxNode.
  destruct (detectNodeType toLowerCase node); try done.
  by destruct (truthy (h_value node) && _).
Qed.

Lemma known_parent_mono (n m : nat) parentId : n ≤ m → known_parent n parentId → known_parent m parentId.
Proof. intros Hle [->|(j & Hj & ->)]; [by left | right; exists j; split; [lia | done]]. Qed.

(** Pushing the record of one more visit. *)
Lemma Traced_push visits st node parentId :
  traced visits st →
  h_id node ∉ processedNodes st →
  nodeMap !! h_id node = Some node →
  known_parent (length visits) parentId →
  traced (visits ++ [(node, parentId)])
    {| scriptArray := scriptArray st ++ [commbox node (nodeIndex st) parentId];
       nodeIndex := S (nodeIndex st);
       processedNodes := set_add (h_id node) (processedNodes st) |}.
Proof.
  intros [Hs Hi Hp Hnd Hpar Hn] Hnew Hin Hparent.
  assert (set_add (h_id node) (processedNodes st) = processedNodes st ++ [h_id node]) as Hadd.
  { unfold set_add. by rewrite (proj2 (set_has_false _ _) Hnew). }
  split; simpl.
  - rewrite Hs, imap_app, Hi, <- app_assoc. do 2 f_equal. simpl.
    unfold record_of. simpl. by rewrite Nat.add_0_r.
  - rewrite Hi, length_app. simpl. lia.
  - rewrite Hadd, Hp, fmap_app. done.
  - rewrite Hadd. apply NoDup_app. split_and!; [done| |apply NoDup_singleton].
    intros x Hx ->%list_elem_of_singleton. done.
  - intros i v Hv. apply lookup_app_Some in Hv as [Hv|[Hlen Hv]]; [by apply Hpar|].
    apply list_lookup_singleton_Some in Hv as [Hz <-]. simpl.
    replace i with (length visits) by lia. done.
  - intros v [Hv|Hv%list_elem_of_singleton]%elem_of_app; [by apply Hn | by subst v].
Qed.

Hypothesis nodeMap_keyed : keyed nodeMap.

(** A call of [processNode] that returns extends the trace. *)
Lemma processNode_traced (fuel : nat) :
  ∀ node parentId st st' visits,
    traced visits st →
    nodeMap !! h_id node = Some node →
    known_parent (length visits) parentId →
    process fuel node parentId st = Some st' →
    ∃ more, traced (visits ++ more) st'.
Proof.
  induction fuel as [|fuel IH]; intros node parentId st st' visits Ht Hin Hpar; simpl.
  - destruct (set_has (processedNodes st) (h_id node)); [|done].
    intros [= <-]. exists []. by rewrite app_nil_r.
  - destruct (set_has (processedNodes st) (h_id node)) eqn:Hhas.
    { intros [= <-]. exists []. by rewrite app_nil_r. }
    apply set_has_false in Hhas.
    pose proof (Traced_push _ _ _ _ Ht Hhas Hin Hpar) as Ht1.
    rewrite convert_id.
    intros Hloop.
    eapply (forEachM_invariant
              (λ s, ∃ more, traced ((visits ++ [(node, parentId)]) ++ more) s)) in Hloop.
    + destruct Hloop as [more Hmore]. exists ([(node, parentId)] ++ more).
      by rewrite app_assoc.
    + intros childId s1 s2 _ [more Hs1] Hstep.
      destruct (nodeMap !! childId) as [childNode|] eqn:Hchild.
      * eapply IH in Hstep as [more' Hs2]; [| exact Hs1 | |].
        -- exists (more ++ more'). by rewrite app_assoc.
        -- by rewrite (nodeMap_keyed _ _ Hchild).
        -- right. exists (length visits). split.
           ++ rewrite !length_app. simpl. lia.
           ++ unfold nth_id. by rewrite (traced_index _ _ _ _ Ht).
      * injection Hstep as <-. by exists more.
    + exists []. by rewrite app_nil_r.
Qed.

Lemma pending_le_size st : pending nodeMap st ≤ size nodeMap.
Proof.
  unfold pending. rewrite <- size_dom. apply subseteq_size. set_solver.
Qed.

Lemma pending_mono st st' :
  processedNodes st ⊆ processedNodes st' → pending nodeMap st' ≤ pending nodeMap st.
Proof. intros Hsub. unfold pending. apply subseteq_size. set_solver. Qed.

Lemma pending_add st st1 k :
  is_Some (nodeMap !! k) → k ∉ processedNodes st →
  processedNodes st1 = set_add k (processedNodes st) →
  pending nodeMap st1 < pending nodeMap st.
Proof.
  intros Hk Hnew Hst1. unfold pending, set_add in *.
  rewrite Hst1, (proj2 (set_has_false _ _) Hnew).
  apply subset_size. apply elem_of_dom in Hk.
  split; [set_solver|]. intros Hsub. specialize (Hsub k). set_solver.
Qed.

(** With one unit of fuel per pending node [processNode] returns. *)
Lemma processNode_returns (fuel : nat) :
  ∀ node parentId st,
    nodeMap !! h_id node = Some node →
    pending nodeMap st ≤ fuel →
    ∃ st', process fuel node parentId st = Some st'
           ∧ processedNodes st ⊆ processedNodes st'.
Proof.
  induction fuel as [|fuel IH]; intros node parentId st Hin Hfuel; simpl.
  - destruct (set_has (processedNodes st) (h_id node)) eqn:Hhas; [eauto|].
    apply set_has_false in Hhas.
    pose proof (pending_add st
      {| scriptArray := []; nodeIndex := 0;
         processedNodes := set_add (h_id node) (processedNodes st) |}
      (h_id node) (mk_is_Some _ _ Hin) Hhas eq_refl). lia.
  - destruct (set_has (processedNodes st) (h_id node)) eqn:Hhas; [eauto|].
    apply set_has_false in Hhas.
    set (st1 := {| scriptArray := _; nodeIndex := _; processedNodes := _ |}).
    pose proof (pending_add st st1 (h_id node) (mk_is_Some _ _ Hin) Hhas eq_refl) as Hlt.
    destruct (forEachM_total
                (λ s, pending nodeMap s ≤ fuel ∧ processedNodes st1 ⊆ processedNodes s)
                (λ childId s,
                   match nodeMap !! childId with
                   | Some childNode =>
                       process fuel childNode
                         (prop_string (commbox node (nodeIndex st) parentId) "id") s
                   | None => Some s
                   end)
                (h_children node) st1) as (st' & Hst' & _ & Hsub).
    + intros childId s1 _ [Hp Hs].
      destruct (nodeMap !! childId) as [childNode|] eqn:Hchild; [|eauto].
      destruct (IH childNode (prop_string (commbox node (nodeIndex st) parentId) "id") s1)
        as (s2 & Hs2 & Hsub2); [by rewrite (nodeMap_keyed _ _ Hchild) | done |].
      exists s2. split; [done|]. split; [|by etrans].
      pose proof (pending_mono _ _ Hsub2). lia.
    + split; [lia | done].
    + exists st'. split; [done|]. etrans; [|exact Hsub].
      unfold st1, set_add. simpl. destruct (set_has _ _); set_solver.
Qed.


Lemma Traced_initial : traced [] (initialState).
Proof.
  split; simpl; try done.
  - apply NoDup_nil_2.
  - intros v Hv. by apply elem_of_nil in Hv.
Qed.

(** The traversal of the roots returns, and its state is traced. *)
Lemma processRoots_traced (hierarchy : list HierarchyNode) :
  (∀ h, h ∈ hierarchy → nodeMap !! h_id h = Some h) →
  ∃ st visits, processRoots toLowerCase nodeMap hierarchy = Some st ∧ traced visits st.
Proof.
  intros Hroots. unfold processRoots, processRootsWith.
  destruct (forEachM_total (λ s, ∃ visits, traced visits s)
              (λ rootNode s, process (size nodeMap) rootNode "node_0" s)
              hierarchy initialState) as (st & Hst & visits & Ht).
  - intros rootNode s1 Hin [visits Ht].
    destruct (processNode_returns (size nodeMap) rootNode "node_0" s1)
      as (s2 & Hs2 & _); [by apply Hroots | apply pending_le_size |].
    exists s2. split; [done|].
    eapply processNode_traced in Hs2 as [more Hmore]; [| exact Ht | by apply Hroots | by left].
    by exists (visits ++ more).
  - exists []. apply Traced_initial.
  - by exists st, visits.
Qed.

Lemma forEachM_mono {A S : Type} (f g : A → S → option S) (xs : list A) (s s' : S) :
  (∀ x s1 s2, f x s1 = Some s2 → g x s1 = Some s2) →
  forEachM f xs s = Some s' → forEachM g xs s = Some s'.
Proof.
  intros Hfg. revert s. induction xs as [|x xs IH]; intros s; simpl; [done|].
  destruct (f x s) as [s1|] eqn:E; [|done]. rewrite (Hfg _ _ _ E). apply IH.
Qed.

(** More fuel does not change what [processNode] returns. *)
Lemma processNode_fuel_mono (fuel : nat) :
  ∀ fuel' node parentId st st',
    fuel ≤ fuel' →
    process fuel node parentId st = Some st' →
    process fuel' node parentId st = Some st'.
Proof.
  induction fuel as [|fuel IH]; intros [|fuel'] node parentId st st' Hle; simpl;
    destruct (set_has (processedNodes st) (h_id node)); try done; try lia.
  apply forEachM_mono. intros childId s1 s2.
  destruct (nodeMap !! childId); [apply IH; lia | done].
Qed.

(** With more fuel the traversal of the roots returns the same state. *)
Lemma processRootsWith_mono (fuel fuel' : nat) (hierarchy : list HierarchyNode) (st : GenState) :
  fuel ≤ fuel' →
  processRootsWith toLowerCase fuel nodeMap hierarchy = Some st →
  processRootsWith toLowerCase fuel' nodeMap hierarchy = Some st.
Proof.
  intros Hle. unfold processRootsWith. apply forEachM_mono.
  intros rootNode s1 s2. by apply processNode_fuel_mono.
Qed.

End TraversalFacts.

(** ** The emitted script *)

Section ScriptFacts.

Variable toLowerCase : string → string.

Local Abbreviation record := (record_of toLowerCase).

Ltac convert_prop :=
  unfold record_of, convertToCommboxNode;
  destruct (detectNodeType toLowerCase _); try reflexivity;
  destruct (truthy _ && _); reflexivity.

Lemma record_id i v : prop (record i v) "id" = Some (JStr (nth_id i)).
Proof. convert_prop. Qed.

Lemma record_parent i v : prop (record i v) "parent" = Some (JStr v.2).
Proof. convert_prop. Qed.

Lemma record_text i v :
  prop (record i v) "text"
    = Some (JStr (or_else (h_value v.1) ("Node " +:+ pretty (2 + i)))).
Proof. convert_prop. Qed.

Lemma record_attachments i v : prop (record i v) "attachments" = Some (JObj []).
Proof. convert_prop. Qed.

Lemma record_no_button i v : prop (record i v) "buttonDisplayMode" = None.
Proof. convert_prop. Qed.

Lemma record_step i v :
  detectNodeType toLowerCase v.1 = NT_transfer →
  prop (record i v) "step" = Some (JStr "agent_node").
Proof. intros H. unfold record_of, convertToCommboxNode. by rewrite H. Qed.

(** What the traversal of a diagram leaves in [scriptArray]. *)
Lemma traversal_spec (ns : list DiagramNode) (conns : list Connection) :
  ∃ visits : list Visit,
    scriptRecords toLowerCase ns conns
      = Some ([configRecord; rootRecord] ++ imap record visits ++ fixedProcessRecords)
    ∧ emittedRecords toLowerCase ns conns = Some (imap record visits)
    ∧ NoDup ((h_id ∘ fst) <$> visits)
    ∧ (∀ i v, visits !! i = Some v → known_parent i v.2)
    ∧ (∀ v, v ∈ visits → (buildHierarchy ns conns).1 !! h_id v.1 = Some v.1).
Proof.
  destruct (processRoots_traced toLowerCase (buildHierarchy ns conns).1
              (buildHierarchy_keyed ns conns) (buildHierarchy ns conns).2)
    as (st & visits & Hst & Ht).
  { apply buildHierarchy_roots_in_map. }
  exists visits. unfold scriptRecords, emittedRecords.
  destruct (buildHierarchy ns conns) as [nodeMap hierarchy]. simpl in *.
  rewrite Hst. destruct Ht as [Hs Hi Hp Hnd Hpar Hn].
  split_and!; try done.
  - by rewrite Hs, <- app_assoc.
  - by rewrite Hs.
  - by rewrite <- Hp.
Qed.

Lemma lookup_imap_record (visits : list Visit) i o :
  imap record visits !! i = Some o ↔ ∃ v, visits !! i = Some v ∧ o = record i v.
Proof.
  rewrite list_lookup_imap. destruct (visits !! i) as [v|]; simpl.
  - split; [intros [= <-]; eauto | intros (v' & [= <-] & ->); done].
  - split; [done | intros (v' & ? & _); done].
Qed.

Lemma parents_precede_script (visits : list Visit) :
  (∀ i v, visits !! i = Some v → known_parent i v.2) →
  parents_precede ([configRecord; rootRecord] ++ imap record visits ++ fixedProcessRecords).
Proof.
  intros Hpar i o p Hi Hp.
  assert (([configRecord; rootRecord] ++ imap record visits ++ fixedProcessRecords) !! 1
          = Some rootRecord) as Hroot by done.
  apply lookup_app_Some in Hi as [Hi|[Hlen Hi]].
  { destruct i as [|[|i]]; simpl in Hi; try done; injection Hi as <-; [done|].
    left. by injection Hp as <-. }
  simpl in Hlen, Hi. apply lookup_app_Some in Hi as [Hi|[Hlen' Hi]].
  - apply lookup_imap_record in Hi as (v & Hv & ->).
    rewrite record_parent in Hp. injection Hp as <-.
    destruct (Hpar _ _ Hv) as [->|(j & Hj & ->)]; right.
    + exists 1, rootRecord. split_and!; [lia | done | done].
    + assert (is_Some (visits !! j)) as [v' Hv'].
      { apply lookup_lt_is_Some. apply lookup_lt_Some in Hv. lia. }
      exists (2 + j), (record j v'). split_and!; [lia | | apply record_id].
      simpl. rewrite lookup_app_l by (rewrite length_imap; by eapply lookup_lt_Some).
      apply lookup_imap_record. eauto.
  - rewrite length_imap in Hlen', Hi. right.
    assert (([configRecord; rootRecord] ++ imap record visits ++ fixedProcessRecords)
              !! (2 + length visits) = Some groupRecord) as Hgroup.
    { simpl. rewrite lookup_app_r by (rewrite length_imap; lia).
      rewrite length_imap. by replace (length visits - length visits) with 0 by lia. }
    destruct (i - 2 - length visits) as [|[|[|[|k]]]] eqn:Hk; simpl in Hi; try done;
      injection Hi as <-; injection Hp as <-.
    + exists 1, rootRecord. split_and!; [lia | done | done].
    + exists (2 + length visits), groupRecord. split_and!; [lia | done | done].
    + exists (2 + length visits), groupRecord. split_and!; [lia | done | done].
    + exists (2 + length visits), groupRecord. split_and!; [lia | done | done].
Qed.

(** C1. Every record of the emitted list that has a [parent] names
    either the root sentinel [#] or the [id] of a record that stands
    earlier in the list; the configuration record, first in the list, is
    the only one without a [parent]. *)
Theorem parent_precedes_children (ns : list DiagramNode) (conns : list Connection) :
  ∃ records,
    scriptRecords toLowerCase ns conns = Some records
    ∧ parents_precede records
    ∧ (∀ i o, records !! i = Some o → 0 < i → is_Some (prop o "parent")).
Proof.
  destruct (traversal_spec ns conns) as (visits & Hrec & _ & _ & Hpar & _).
  eexists. split; [exact Hrec|]. split; [by apply parents_precede_script|].
  intros i o Hi Hpos.
  apply lookup_app_Some in Hi as [Hi|[Hlen Hi]].
  { destruct i as [|[|i]]; simpl in Hi; try done; [lia | injection Hi as <-; by eexists]. }
  apply lookup_app_Some in Hi as [Hi|[Hlen' Hi]].
  - apply lookup_imap_record in Hi as (v & Hv & ->). rewrite record_parent. by eexists.
  - unfold fixedProcessRecords in Hi.
    apply list_elem_of_lookup_2 in Hi.
    repeat (apply elem_of_cons in Hi as [->|Hi]; [by eexists|]).
    by apply elem_of_nil in Hi.
Qed.


(** The fuel of the model does not matter once there is enough of it. *)
Lemma traversal_fuel (ns : list DiagramNode) (conns : list Connection) (fuel : nat) :
  size (buildHierarchy ns conns).1 ≤ fuel →
  processRootsWith toLowerCase fuel (buildHierarchy ns conns).1 (buildHierarchy ns conns).2
  = processRoots toLowerCase (buildHierarchy ns conns).1 (buildHierarchy ns conns).2.
Proof.
  intros Hfuel.
  destruct (processRoots_traced toLowerCase (buildHierarchy ns conns).1
              (buildHierarchy_keyed ns conns) (buildHierarchy ns conns).2)
    as (st & visits & Hst & _).
  { apply buildHierarchy_roots_in_map. }
  rewrite Hst. by apply (processRootsWith_mono toLowerCase _ _ _ _ _ Hfuel).
Qed.

(** C3. The traversal returns on every diagram, cyclic or not: one unit
    of fuel per node of the map is enough, and more fuel gives the same
    state.  The records it pushes stand for pairwise distinct nodes of the
    map, so a node is emitted at most once however many connections point
    at it, and the [i]-th of them (from 0) has the id [n_] followed by
    [2 + i]. *)
Theorem traversal_terminates (ns : list DiagramNode) (conns : list Connection) :
  ∃ visits : list Visit,
    emittedRecords toLowerCase ns conns = Some (imap record visits)
    ∧ (∀ fuel, size (buildHierarchy ns conns).1 ≤ fuel →
         processRootsWith toLowerCase fuel (buildHierarchy ns conns).1
           (buildHierarchy ns conns).2
         = processRoots toLowerCase (buildHierarchy ns conns).1 (buildHierarchy ns conns).2)
    ∧ NoDup ((h_id ∘ fst) <$> visits)
    ∧ (∀ v, v ∈ visits → (buildHierarchy ns conns).1 !! h_id v.1 = Some v.1)
    ∧ length visits ≤ size (buildHierarchy ns conns).1
    ∧ (∀ i o, imap record visits !! i = Some o →
              prop o "id" = Some (JStr ("n_" +:+ pretty (2 + i)))).
Proof.
  destruct (traversal_spec ns conns) as (visits & _ & Hem & Hnd & _ & Hin).
  exists visits. split_and!; try done.
  - intros fuel. apply traversal_fuel.
  - rewrite <- (length_fmap (h_id ∘ fst)), <- size_dom.
    rewrite <- (size_list_to_set (C:=gset attr)) by done.
    apply subseteq_size. intros k Hk. apply elem_of_list_to_set in Hk.
    apply list_elem_of_fmap in Hk as (v & -> & Hv). apply elem_of_dom.
    exists v.1. exact (Hin v Hv).
  - intros i o (v & _ & ->)%lookup_imap_record. apply record_id.
Qed.

Lemma record_not_config i v : record i v ≠ configRecord.
Proof. intros H%(f_equal (λ o, prop o "id")). by rewrite record_id in H. Qed.

Lemma record_not_root i v : record i v ≠ rootRecord.
Proof.
  intros H%(f_equal (λ o, prop o "id")). rewrite record_id in H.
  unfold nth_id in H. simpl in H. rewrite !append_cons in H. discriminate H.
Qed.

Lemma record_not_group i v : record i v ≠ groupRecord.
Proof. intros H%(f_equal (λ o, prop o "buttonDisplayMode")). by rewrite record_no_button in H. Qed.

Lemma record_not_error i v : record i v ≠ errorRecord.
Proof. intros H%(f_equal (λ o, prop o "attachments")). by rewrite record_attachments in H. Qed.

Lemma record_not_unknown i v : record i v ≠ unknownRecord.
Proof. intros H%(f_equal (λ o, prop o "attachments")). by rewrite record_attachments in H. Qed.

(** A node labelled with the transfer keyword gets the [step] marker,
    which the fixed transfer record does not have. *)
Lemma record_not_transfer i v :
  toLowerCase "מעבר לנציג" = "מעבר לנציג" → record i v ≠ transferRecord.
Proof.
  intros Hkw H.
  pose proof (f_equal (λ o, prop o "text") H) as Htext.
  pose proof (f_equal (λ o, prop o "step") H) as Hstep.
  simpl in Htext, Hstep. rewrite record_text in Htext.
  destruct (h_value v.1) as [|c s] eqn:Hv.
  - unfold or_else in Htext. simpl in Htext. rewrite !append_cons in Htext. discriminate Htext.
  - assert (String c s = "מעבר לנציג") as Hs by (unfold or_else in Htext; simpl in Htext; congruence).
    rewrite record_step in Hstep; [done|].
    unfold detectNodeType. by rewrite or_else_empty, Hv, Hs, Hkw.
Qed.

(** The place of a record that the traversal cannot have pushed. *)
Lemma fixed_place (visits : list Visit) (f : jsobject) (k : nat) :
  (∀ i v, record i v ≠ f) →
  ([configRecord; rootRecord] ++ fixedProcessRecords) !! k = Some f →
  (∀ k', ([configRecord; rootRecord] ++ fixedProcessRecords) !! k' = Some f → k' = k) →
  ∀ i, ([configRecord; rootRecord] ++ imap record visits ++ fixedProcessRecords) !! i = Some f
       ↔ i = (if decide (k < 2) then k else k + length visits).
Proof.
  intros Hne Hk Huniq i. split.
  - intros Hi. apply lookup_app_Some in Hi as [Hi|[Hlen Hi]].
    + assert (i < 2) by (by apply lookup_lt_Some in Hi).
      rewrite <- (Huniq i); [by rewrite decide_True|].
      by apply lookup_app_l_Some.
    + simpl in Hlen, Hi. apply lookup_app_Some in Hi as [Hi|[Hlen' Hi]].
      * apply lookup_imap_record in Hi as (v & _ & Hv). by destruct (Hne _ _ (eq_sym Hv)).
      * rewrite length_imap in Hlen', Hi.
        rewrite <- (Huniq (2 + (i - 2 - length visits))).
        -- rewrite decide_False by lia. lia.
        -- exact Hi.
  - intros ->. case_decide.
    + rewrite lookup_app_l by done. by rewrite lookup_app_l in Hk by done.
    + apply lookup_lt_Some in Hk as Hlt. simpl in Hlt.
      rewrite lookup_app_r by (simpl; lia). simpl.
      rewrite lookup_app_r by (rewrite length_imap; lia). rewrite length_imap.
      rewrite lookup_app_r in Hk by (simpl; lia). simpl in Hk.
      by replace (k + length visits - 2 - length visits) with (k - 2) by lia.
Qed.

Ltac only_place :=
  let k' := fresh "k" in
  let H := fresh "H" in
  intros k' H;
  do 6 (destruct k' as [|k']; [first [reflexivity | discriminate H]|]);
  discriminate H.

(** C2. Whatever the diagram, the emitted list is the configuration
    record, the root node, the records of the traversal and the four
    fixed process records, in this order, and each of the six fixed
    records occurs exactly once, at its own place: the configuration
    record first, the root node second, the grouping record and the
    transfer, error and unknown records last.  (For the transfer record
    this uses that lower-casing leaves its Hebrew label as it is.) *)
Theorem fixed_boilerplate (ns : list DiagramNode) (conns : list Connection) :
  ∃ emitted records,
    scriptRecords toLowerCase ns conns = Some records
    ∧ emittedRecords toLowerCase ns conns = Some emitted
    ∧ records = [configRecord; rootRecord] ++ emitted
                  ++ [groupRecord; transferRecord; errorRecord; unknownRecord]
    ∧ (∀ i, records !! i = Some configRecord ↔ i = 0)
    ∧ (∀ i, records !! i = Some rootRecord ↔ i = 1)
    ∧ (∀ i, records !! i = Some groupRecord ↔ i = 2 + length emitted)
    ∧ (toLowerCase "מעבר לנציג" = "מעבר לנציג" →
       ∀ i, records !! i = Some transferRecord ↔ i = 3 + length emitted)
    ∧ (∀ i, records !! i = Some errorRecord ↔ i = 4 + length emitted)
    ∧ (∀ i, records !! i = Some unknownRecord ↔ i = 5 + length emitted).
Proof.
  destruct (traversal_spec ns conns) as (visits & Hrec & Hem & _).
  eexists (imap record visits), _. split; [exact Hrec|]. split; [exact Hem|].
  split; [done|]. rewrite length_imap.
  split_and!; [| | | intros Hkw | |]; intros i.
  - rewrite (fixed_place visits configRecord 0); [done | apply record_not_config | done | only_place].
  - rewrite (fixed_place visits rootRecord 1); [done | apply record_not_root | done | only_place].
  - rewrite (fixed_place visits groupRecord 2); [done | apply record_not_group | done | only_place].
  - rewrite (fixed_place visits transferRecord 3);
      [done | intros; by apply record_not_transfer | done | only_place].
  - rewrite (fixed_place visits errorRecord 4); [done | apply record_not_error | done | only_place].
  - rewrite (fixed_place visits unknownRecord 5); [done | apply record_not_unknown | done | only_place].
Qed.


Lemma id_collision_not_NoDup (records : list jsobject) (ident : string) :
  id_collision records ident → ¬ NoDup (record_ids records).
Proof.
  intros (i & j & o & o' & Hlt & Hi & Hj & Hido & Hido') Hnd.
  rewrite <- (take_drop_middle records j o' Hj) in Hnd.
  unfold record_ids in Hnd. rewrite omap_app in Hnd. simpl in Hnd. rewrite Hido' in Hnd.
  apply NoDup_app in Hnd as (_ & Hdisj & _).
  apply (Hdisj (JStr ident)); [|by left].
  apply list_elem_of_omap. exists o. split; [|done].
  apply list_elem_of_lookup. exists i. by rewrite lookup_take_lt.
Qed.

(** The [k]-th record of the traversal and the [j]-th fixed process
    record carry the same id when [nth_id k] is the id of the latter. *)
Lemma collision_with_fixed (visits : list Visit) (k j : nat) (f : jsobject) (ident : string) :
  k < length visits →
  nth_id k = ident →
  fixedProcessRecords !! j = Some f →
  prop f "id" = Some (JStr ident) →
  id_collision ([configRecord; rootRecord] ++ imap record visits ++ fixedProcessRecords)
    ident.
Proof.
  intros Hk Hid Hj Hf.
  destruct (lookup_lt_is_Some_2 visits k Hk) as [v Hv].
  exists (2 + k), (2 + length visits + j), (record k v), f. split_and!.
  - lia.
  - simpl. rewrite lookup_app_l by (by rewrite length_imap).
    apply lookup_imap_record. eauto.
  - rewrite lookup_app_r by (simpl; lia). simpl.
    rewrite lookup_app_r by (rewrite length_imap; lia). rewrite length_imap.
    match goal with |- _ !! ?n = _ => by replace n with j by lia end.
  - by rewrite record_id, Hid.
  - done.
Qed.

(** C10. When the traversal emits at least two nodes, the second one
    gets the id [n_3], which is also the id of the grouping record
    pushed after the traversal: two different records of the list carry
    the same id, and the ids of the list are not pairwise distinct.  In
    the same way the ninth, tenth and eleventh emitted nodes get the ids
    [n_10], [n_11] and [n_12] of the three fixed process records. *)
Theorem sequential_ids_collide (ns : list DiagramNode) (conns : list Connection)
    (emitted records : list jsobject) :
  emittedRecords toLowerCase ns conns = Some emitted →
  scriptRecords toLowerCase ns conns = Some records →
  (2 ≤ length emitted →
     id_collision records "n_3"
     ∧ (∃ o, records !! 3 = Some o ∧ o ≠ groupRecord ∧ prop o "id" = Some (JStr "n_3")
             ∧ records !! (2 + length emitted) = Some groupRecord)
     ∧ ¬ NoDup (record_ids records))
  ∧ (9 ≤ length emitted → id_collision records "n_10")
  ∧ (10 ≤ length emitted → id_collision records "n_11")
  ∧ (11 ≤ length emitted → id_collision records "n_12").
Proof.
  destruct (traversal_spec ns conns) as (visits & Hrec & Hem & _).
  rewrite Hrec, Hem. intros [= <-] [= <-]. rewrite length_imap.
  assert (2 ≤ length visits → id_collision
            ([configRecord; rootRecord] ++ imap record visits ++ fixedProcessRecords) "n_3")
    as Hthree.
  { intros Hlen. by apply (collision_with_fixed visits 1 0 groupRecord). }
  split_and!; intros Hlen.
  - split_and!; [by apply Hthree | | by eapply id_collision_not_NoDup, Hthree].
    destruct (lookup_lt_is_Some_2 visits 1) as [v Hv]; [lia|].
    exists (record 1 v). split_and!.
    + simpl. rewrite lookup_app_l by (rewrite length_imap; lia).
      apply lookup_imap_record. eauto.
    + apply record_not_group.
    + apply record_id.
    + simpl. rewrite lookup_app_r by (rewrite length_imap; lia).
      rewrite length_imap. by replace (length visits - length visits) with 0 by lia.
  - by apply (collision_with_fixed visits 8 1 transferRecord).
  - by apply (collision_with_fixed visits 9 2 errorRecord).
  - by apply (collision_with_fixed visits 10 3 unknownRecord).
Qed.

(** The generation returns, and its envelope holds the escaped
    serialization of the emitted list. *)
Lemma generateCommboxXML_returns (timestamp : string) (now : nat) (parsedData : ParsedData) :
  ∃ records,
    scriptRecords toLowerCase (nodes parsedData) (connections parsedData) = Some records
    ∧ generateCommboxXML toLowerCase timestamp now parsedData
      = Some (envelope (escapeXml (Json.stringify (JArr (map JObj records)))) timestamp now).
Proof.
  destruct (traversal_spec (nodes parsedData) (connections parsedData)) as (visits & Hrec & _).
  eexists. split; [exact Hrec|]. unfold generateCommboxXML. by rewrite Hrec.
Qed.

End ScriptFacts.

Lemma sequential_ids_collide_witness :
  ∃ records,
    scriptRecords toLowerCase_ascii two_nodes two_nodes_edges = Some records
    ∧ id_collision records "n_3".
Proof.
  destruct (scriptRecords toLowerCase_ascii two_nodes two_nodes_edges) as [records|] eqn:Hrec;
    [|by vm_compute in Hrec].
  destruct (emittedRecords toLowerCase_ascii two_nodes two_nodes_edges) as [emitted|] eqn:Hem;
    [|by vm_compute in Hem].
  exists records. split; [done|].
  destruct (sequential_ids_collide toLowerCase_ascii two_nodes two_nodes_edges
              emitted records Hem Hrec) as [Hthree _].
  apply Hthree. vm_compute in Hem. injection Hem as <-. simpl. lia.
Defined.

Lemma fixed_boilerplate_witness :
  ∃ records,
    scriptRecords toLowerCase_ascii two_nodes two_nodes_edges = Some records
    ∧ ∀ i, records !! i = Some transferRecord ↔ i = 5.
Proof.
  destruct (fixed_boilerplate toLowerCase_ascii two_nodes two_nodes_edges)
    as (emitted & records & Hrec & Hem & _ & _ & _ & _ & Htransfer & _).
  exists records. split; [done|].
  vm_compute in Hem. injection Hem as <-. by apply Htransfer.
Defined.

Example cycle_is_traversed_once :
  map (λ o, (prop_string o "id", prop_string o "text", prop_string o "parent"))
    <$> emittedRecords toLowerCase_ascii cycle_nodes cycle_edges
  = Some [("n_2", "R", "node_0"); ("n_3", "A", "n_2"); ("n_4", "B", "n_3")].
Proof. by vm_compute. Qed.

(** ** The script inside the envelope *)

Section EnvelopeFacts.

Variable toLowerCase : string → string.

Local Abbreviation payload records := (escapeXml (Json.stringify (JArr (map JObj records)))).

Lemma envelope_after_marker (escapedValue timestamp : string) (now : nat) :
  ∃ rest, after_first script_marker (envelope escapedValue timestamp now)
          = Some (escapedValue +:+ String Json.dquote rest).
Proof. eexists. reflexivity. Qed.

Lemma until_char_app (c : ascii) (s rest : string) :
  c ∉ chars s → until_char c (s +:+ String c rest) = Some s.
Proof.
  induction s as [|x s IH]; intros Hc.
  - rewrite append_nil_l. cbn [until_char]. by rewrite Ascii.eqb_refl.
  - rewrite append_cons. cbn [until_char].
    unfold chars in Hc, IH. cbn [list_ascii_of_string] in Hc.
    apply not_elem_of_cons in Hc as [Hx Hs].
    destruct (Ascii.eqb_spec x c) as [->|_]; [done|]. by rewrite (IH Hs).
Qed.

Lemma script_value_envelope (escapedValue timestamp : string) (now : nat) :
  Json.dquote ∉ chars escapedValue →
  script_value (envelope escapedValue timestamp now) = Some escapedValue.
Proof.
  intros Hq. unfold script_value.
  destruct (envelope_after_marker escapedValue timestamp now) as [rest ->].
  simpl. by apply until_char_app.
Qed.

Lemma escapeXml_no_quote (s : string) : Json.dquote ∉ chars (escapeXml s).
Proof.
  intros Hin.
  assert (Escaped (escapeXml s)) as He by (rewrite escapeXml_charwise; apply escape_chars_Escaped).
  apply (Escaped_no_markup _ He _ Hin). in_list.
Qed.

(** C6. The script that [generateCommboxXML] embeds in the envelope is the
    serialized record list with each of the five reserved characters
    replaced by its entity.  For every record list, the [Value]
    attribute read back from the envelope is this escaped text; it is
    made of unreserved characters and entities only, so it holds no [<],
    [>], double quote or apostrophe, and every [&] in it opens one of the
    five entities.  For every diagram the generated markup is the
    envelope around the escaped script of its records, and its [Value]
    attribute is that escaped script. *)
Theorem escaped_script_value (records : list jsobject) (parsedData : ParsedData)
    (timestamp : string) (now : nat) :
  (script_value (envelope (payload records) timestamp now) = Some (payload records)
   ∧ payload records = escape_chars (Json.stringify (JArr (map JObj records)))
   ∧ Escaped (payload records)
   ∧ (∀ c, c ∈ chars (payload records) → c ∉ ["<"; ">"; Json.dquote; "'"]%char)
   ∧ (∀ a b, payload records = a +:+ String "&" b →
             ∃ e b', e ∈ entities ∧ String "&" b = e +:+ b'))
  ∧ ∃ script xml,
      scriptRecords toLowerCase (nodes parsedData) (connections parsedData) = Some script
      ∧ generateCommboxXML toLowerCase timestamp now parsedData = Some xml
      ∧ xml = envelope (payload script) timestamp now
      ∧ script_value xml = Some (payload script).
Proof.
  assert (Escaped (payload records)) as He
    by (rewrite escapeXml_charwise; apply escape_chars_Escaped).
  split; [split_and!|].
  - apply script_value_envelope, escapeXml_no_quote.
  - apply escapeXml_charwise.
  - exact He.
  - by apply Escaped_no_markup.
  - by apply Escaped_ampersand.
  - destruct (generateCommboxXML_returns toLowerCase timestamp now parsedData)
      as (script & Hscript & Hxml).
    exists script, (envelope (payload script) timestamp now). split_and!; try done.
    apply script_value_envelope, escapeXml_no_quote.
Qed.

End EnvelopeFacts.

(** The escaping scenario, end to end: the label with [<], [&] and a
    double quote arrives in the [Value] attribute with the three
    characters replaced. *)
Example markup_label_in_envelope :
  ∃ xml value,
    generateCommboxXML toLowerCase_ascii "1.1.2025, 10:00:00" 1 markup_label_diagram = Some xml
    ∧ script_value xml = Some value
    ∧ includes value "a&lt;b&amp;\&quot;c" = true
    ∧ includes value "a<b" = false.
Proof.
  eexists _, _. split_and!.
  - by vm_compute.
  - by vm_compute.
  - by vm_compute.
  - by vm_compute.
Qed.

(** ** Decompressor and endpoint *)

Section DecoderFacts.

Variable trim : string → string.
Variable Buffer_from_base64 : string → list byte.
Variable inflateRaw : list byte → Completion string.
Variable decodeURIComponent : string → Completion string.

Local Abbreviation decode := (decodeDrawio trim Buffer_from_base64 inflateRaw decodeURIComponent).

Lemma decodeDrawio_outcome (s : string) :
  decode s =
    match inflateRaw (Buffer_from_base64 (trim s)) with
    | Return d =>
        match decodeURIComponent d with
        | Return u => Return u
        | Throw _ => Throw decompressError
        end
    | Throw _ => Throw decompressError
    end.
Proof.
  unfold decodeDrawio.
  destruct (inflateRaw _) as [d|e]; simpl; [|done].
  by destruct (decodeURIComponent d).
Qed.

Lemma decodeDrawio_throws (s : string) (e : Exn) :
  decode s = Throw e → e = decompressError.
Proof.
  rewrite decodeDrawio_outcome.
  destruct (inflateRaw _) as [d|e']; [destruct (decodeURIComponent d)|]; congruence.
Qed.

(** C8, as the code has it.  The base64 step answers on every string, so
    a run of [decodeDrawio] fails exactly when the inflation or the
    percent-decoding throws, and every failure is the same error, with
    the message [Failed to decompress Draw.io file]; otherwise the result
    is the percent-decoded text. *)
Theorem decodeDrawio_single_error (s : string) :
  (∀ e, decodeDrawio trim Buffer_from_base64 inflateRaw decodeURIComponent s = Throw e →
        e = Error "Failed to decompress Draw.io file")
  ∧ ((∃ e, decode s = Throw e) ↔
       (∃ e, inflateRaw (Buffer_from_base64 (trim s)) = Throw e)
       ∨ (∃ d e, inflateRaw (Buffer_from_base64 (trim s)) = Return d
                 ∧ decodeURIComponent d = Throw e))
  ∧ (∀ u, decode s = Return u ↔
       ∃ d, inflateRaw (Buffer_from_base64 (trim s)) = Return d
            ∧ decodeURIComponent d = Return u).
Proof.
  rewrite decodeDrawio_outcome.
  destruct (inflateRaw _) as [d|e]; [destruct (decodeURIComponent d) as [u|e] eqn:Hu|].
  - split_and!; [done | | ].
    + split; [by intros [e He] | intros [[e He]|(d' & e & [= <-] & He)]; congruence].
    + intros u'. split; [intros [= <-]; eauto | intros (d' & [= <-] & Hd'); congruence].
  - split_and!; [by intros e' [= <-] | | ].
    + split; [intros _; right; eauto | eauto].
    + intros u. split; [done | intros (d' & [= <-] & Hd'); congruence].
  - split_and!; [by intros e' [= <-] | | ].
    + split; [intros _; left; eauto | eauto].
    + intros u. split; [done | by intros (d' & Hd & _)].
Qed.

Section RoundTrip.

Variable encodeURIComponent : string → string.
Variable deflateRaw : string → list byte.
Variable base64_encode : list byte → string.
(** The strings [encodeURIComponent] accepts: well-formed Unicode. *)
Variable well_formed : string → Prop.

Hypothesis base64_text_trimmed : ∀ b, trim (base64_encode b) = base64_encode b.
Hypothesis base64_decode_encode : ∀ b, Buffer_from_base64 (base64_encode b) = b.
Hypothesis inflate_deflate : ∀ s, inflateRaw (deflateRaw s) = Return s.
Hypothesis decode_encode_URIComponent :
  ∀ s, well_formed s → decodeURIComponent (encodeURIComponent s) = Return s.

(** C9. Decompressing what the matching compression (percent-encode, raw
    deflate, base64) produced from a well-formed markup gives the markup
    back, the libraries being inverse to each other step by step. *)
Theorem decodeDrawio_compress (markup : string) :
  well_formed markup →
  decodeDrawio trim Buffer_from_base64 inflateRaw decodeURIComponent
    (compress encodeURIComponent deflateRaw base64_encode markup) = Return markup.
Proof.
  intros Hwf. rewrite decodeDrawio_outcome. unfold compress.
  by rewrite base64_text_trimmed, base64_decode_encode, inflate_deflate,
    decode_encode_URIComponent.
Qed.

End RoundTrip.

Variable parseString : string → Completion Document.
Variable toLowerCase : string → string.
Variable timestamp : string.
Variables now_xml now_filename now_model : nat.

Local Abbreviation parse :=
  (parseDrawioFile trim Buffer_from_base64 inflateRaw decodeURIComponent parseString).
Local Abbreviation endpoint :=
  (convert toLowerCase trim Buffer_from_base64 inflateRaw decodeURIComponent parseString
     timestamp now_xml now_filename now_model).

Lemma message_or_nonempty (e : Exn) (fallback : string) :
  fallback ≠ "" → message_or e fallback ≠ "".
Proof.
  intros Hf. unfold message_or. destruct (message e) as [[|c m]|]; try done.
Qed.

Lemma parse_failure_response (fileContent : string) (e : Exn) :
  parse fileContent = Throw e →
  endpoint (Some fileContent) = Some (Failure 500 (message_or e "שגיאה בעיבוד הקובץ")).
Proof. intros H. unfold convert. by rewrite H. Qed.

(** The endpoint answers every request. *)
Lemma convert_returns (file : option string) : ∃ response, endpoint file = Some response.
Proof.
  unfold convert. destruct file as [fileContent|]; [|eauto].
  destruct (parseDrawioFile _ _ _ _ _ _) as [parsedData|e]; [|eauto].
  destruct (generateCommboxXML_returns toLowerCase timestamp now_xml parsedData)
    as (records & _ & ->). eauto.
Qed.

(** C7. When the payload found in the uploaded file does not inflate, the
    response is a failure: it has no [xml] field and its [error] is the
    message [Failed to decompress Draw.io file].  More generally every
    failure of the decoding or of the parsing gives a response without
    [xml] and with a non-empty [error]: nothing of a failed conversion is
    returned. *)
Theorem invalid_deflate_fails (fileContent compressed : string) (e : Exn) :
  findCompressedData parseString fileContent = Return compressed →
  inflateRaw (Buffer_from_base64 (trim compressed)) = Throw e →
  ∃ response,
    convert toLowerCase trim Buffer_from_base64 inflateRaw decodeURIComponent parseString
      timestamp now_xml now_filename now_model (Some fileContent) = Some response
    ∧ response_xml response = None
    ∧ response_error response = Some "Failed to decompress Draw.io file"
    ∧ (∀ fileContent' e',
         parse fileContent' = Throw e' →
         ∃ response' msg,
           endpoint (Some fileContent') = Some response'
           ∧ response_xml response' = None
           ∧ response_error response' = Some msg ∧ msg ≠ "").
Proof.
  intros Hfind Hinflate. eexists. split_and!.
  - apply (parse_failure_response fileContent decompressError).
    unfold parseDrawioFile. rewrite Hfind. simpl.
    by rewrite decodeDrawio_outcome, Hinflate.
  - done.
  - done.
  - intros fileContent' e' Hparse. eexists _, _.
    split_and!; [by apply parse_failure_response | done | done |].
    by apply message_or_nonempty.
Qed.

End DecoderFacts.

(** Whatever the libraries do, two failures of [decodeDrawio] are the
    same error: there is no failure of the base64 step that differs from
    a failure of the inflation or of the percent-decoding. *)
Lemma decodeDrawio_failures_indistinct :
  ¬ ∃ trim Buffer_from_base64 inflateRaw decodeURIComponent s1 s2 e1 e2,
      decodeDrawio trim Buffer_from_base64 inflateRaw decodeURIComponent s1 = Throw e1
      ∧ decodeDrawio trim Buffer_from_base64 inflateRaw decodeURIComponent s2 = Throw e2
      ∧ e1 ≠ e2.
Proof.
  intros (trim & b64 & inflate & uri & s1 & s2 & e1 & e2 & H1 & H2 & Hne).
  apply Hne.
  by rewrite (decodeDrawio_throws _ _ _ _ _ _ H1), (decodeDrawio_throws _ _ _ _ _ _ H2).
Qed.

Lemma decodeDrawio_compress_witness :
  decodeDrawio (λ s, s) list_byte_of_string stored_inflate plain_decode
    (compress (λ s, s) list_byte_of_string string_of_list_byte "<mxGraphModel/>")
  = Return "<mxGraphModel/>".
Proof.
  apply (decodeDrawio_compress (λ s, s) list_byte_of_string stored_inflate plain_decode
           (λ s, s) list_byte_of_string string_of_list_byte (λ _, True)).
  - done.
  - intros b. apply list_byte_of_string_of_list_byte.
  - intros s. unfold stored_inflate. by rewrite string_of_list_byte_of_string.
  - done.
  - done.
Defined.

Lemma invalid_deflate_fails_witness :
  ∃ response,
    convert toLowerCase_ascii (λ s, s) list_byte_of_string failing_inflate plain_decode
      sample_parser "1.1.2025, 10:00:00" 1 2 3 (Some "<mxfile/>") = Some response
    ∧ response_xml response = None
    ∧ response_error response = Some "Failed to decompress Draw.io file".
Proof.
  destruct (invalid_deflate_fails (λ s, s) list_byte_of_string failing_inflate plain_decode
              sample_parser toLowerCase_ascii "1.1.2025, 10:00:00" 1 2 3
              "<mxfile/>" "AAAA" (Error "invalid stored block lengths") eq_refl eq_refl)
    as (response & Hresponse & Hxml & Herror & _).
  by exists response.
Defined.

(** ** Shape of the hierarchy *)

Section HierarchyShape.

Lemma register_lookup (ns : list DiagramNode) (k : attr) :
  foldl register ∅ ns !! k = of_node <$> last (nodes_with_id ns k).
Proof.
  induction ns as [|node ns IH] using rev_ind; [done|].
  rewrite foldl_app. simpl. unfold register at 1. unfold nodes_with_id in *.
  rewrite filter_app, lookup_insert. simpl.
  rewrite filter_cons, filter_nil.
  destruct (decide (node_id node = k)); [by rewrite last_snoc | by rewrite app_nil_r].
Qed.

Lemma register_dom (ns : list DiagramNode) :
  dom (foldl register ∅ ns) = list_to_set (node_ids ns).
Proof.
  induction ns as [|node ns IH] using rev_ind; [simpl; by rewrite dom_empty_L|].
  rewrite foldl_app. simpl. unfold register at 1. unfold node_ids in *.
  rewrite dom_insert_L, IH, fmap_app, list_to_set_app_L. simpl. set_solver.
Qed.

Lemma link_dom (nodeMap : gmap attr HierarchyNode) (conn : Connection) :
  dom (link nodeMap conn) = dom nodeMap.
Proof.
  unfold link.
  destruct (nodeMap !! conn_source conn), (nodeMap !! conn_target conn); try done.
  by rewrite !dom_alter_L.
Qed.

Lemma links_dom (nodeMap : gmap attr HierarchyNode) (conns : list Connection) :
  dom (foldl link nodeMap conns) = dom nodeMap.
Proof.
  revert nodeMap. induction conns as [|c conns IH]; intros nodeMap; [done|].
  simpl. by rewrite IH, link_dom.
Qed.

Lemma links_keyed (nodeMap : gmap attr HierarchyNode) (conns : list Connection) :
  keyed nodeMap → keyed (foldl link nodeMap conns).
Proof. apply (foldl_preserves keyed). apply link_keyed. Qed.

Lemma registered_keyed (ns : list DiagramNode) : keyed (foldl register ∅ ns).
Proof.
  apply (foldl_preserves keyed); [apply register_keyed|].
  intros k n. by rewrite lookup_empty.
Qed.

(** The effect of one connection on the object under [k]. *)
Lemma link_lookup (nodeMap : gmap attr HierarchyNode) (conn : Connection) (k : attr) :
  keyed nodeMap →
  link nodeMap conn !! k
  = (λ h,
       (if decide (conn_target conn = k
                   ∧ conn_source conn ∈ dom nodeMap ∧ conn_target conn ∈ dom nodeMap)
        then set_parent (conn_source conn) else id)
         ((if decide (conn_source conn = k
                      ∧ conn_source conn ∈ dom nodeMap ∧ conn_target conn ∈ dom nodeMap)
           then push_child (conn_target conn) else id) h))
      <$> nodeMap !! k.
Proof.
  intros Hk. unfold link.
  destruct (nodeMap !! conn_source conn) as [s|] eqn:Hs;
    [destruct (nodeMap !! conn_target conn) as [t|] eqn:Ht|].
  - assert (conn_source conn ∈ dom nodeMap) as Hsd by (apply elem_of_dom; eauto).
    assert (conn_target conn ∈ dom nodeMap) as Htd by (apply elem_of_dom; eauto).
    rewrite (Hk _ _ Hs), (Hk _ _ Ht).
    destruct (decide (conn_target conn = k)) as [Etgt|Etgt];
      destruct (decide (conn_source conn = k)) as [Esrc|Esrc].
    + rewrite !decide_True by done. rewrite Etgt, Esrc, !lookup_alter_eq.
      by destruct (nodeMap !! k).
    + rewrite decide_True, decide_False by naive_solver.
      rewrite Etgt, lookup_alter_eq, lookup_alter_ne by done.
      by destruct (nodeMap !! k).
    + rewrite decide_False, decide_True by naive_solver.
      rewrite lookup_alter_ne by done. rewrite Esrc, lookup_alter_eq.
      by destruct (nodeMap !! k).
    + rewrite !decide_False by naive_solver. rewrite !lookup_alter_ne by done.
      by destruct (nodeMap !! k).
  - assert (conn_target conn ∉ dom nodeMap) by (by apply not_elem_of_dom).
    rewrite !decide_False by naive_solver. by destruct (nodeMap !! k).
  - assert (conn_source conn ∉ dom nodeMap) by (by apply not_elem_of_dom).
    rewrite !decide_False by naive_solver. by destruct (nodeMap !! k).
Qed.

(** What [buildHierarchy] leaves in the map. *)
Lemma nodeMap_lookup (ns : list DiagramNode) (conns : list Connection) (k : attr) :
  (buildHierarchy ns conns).1 !! k = linked ns conns k <$> last (nodes_with_id ns k).
Proof.
  unfold buildHierarchy. simpl.
  induction conns as [|conn conns IH] using rev_ind.
  - simpl. rewrite register_lookup. by destruct (last _).
  - rewrite foldl_app. simpl.
    rewrite link_lookup by apply links_keyed, registered_keyed.
    rewrite IH, links_dom, register_dom. destruct (last (nodes_with_id ns k)) as [node|]; [|done].
    simpl. f_equal. unfold linked, incoming, outgoing.
    rewrite !filter_app, !filter_cons, !filter_nil.
    assert (∀ a : attr, a ∈ (list_to_set (node_ids ns) : gset attr) ↔ a ∈ node_ids ns) as Hset
      by (intros a; apply elem_of_list_to_set).
    destruct (decide (conn_source conn = k ∧ resolves ns conn)) as [Hout|Hout];
      destruct (decide (conn_target conn = k ∧ resolves ns conn)) as [Hin|Hin];
      unfold resolves in Hout, Hin; rewrite <- !Hset in Hout, Hin.
    all: repeat case_decide; try (exfalso; tauto).
    all: unfold set_parent, push_child; simpl.
    all: by rewrite ?fmap_app, ?last_snoc, ?app_nil_r.
Qed.

Lemma size_list_to_set_le (l : list attr) : size (list_to_set l : gset attr) ≤ length l.
Proof.
  induction l as [|x l IH]; simpl; [done|].
  rewrite size_union_alt, size_singleton.
  assert (size ((list_to_set l : gset attr) ∖ {[x]}) ≤ size (list_to_set l : gset attr))
    by (apply subseteq_size; set_solver).
  lia.
Qed.

End HierarchyShape.

Section HierarchyTheorems.

(** X1. The hierarchy map has one entry per distinct node id and nothing
    else: connections add no entry and remove none, whatever their
    endpoints, and the map is never larger than the node list. *)
Theorem hierarchy_keys (ns : list DiagramNode) (conns : list Connection) :
  (∀ k, is_Some ((buildHierarchy ns conns).1 !! k) ↔ k ∈ node_ids ns)
  ∧ size (buildHierarchy ns conns).1 ≤ length ns.
Proof.
  assert (Hdom : dom (buildHierarchy ns conns).1 = list_to_set (node_ids ns)).
  { unfold buildHierarchy. simpl. by rewrite links_dom, register_dom. }
  split.
  - intros k. by rewrite <- elem_of_dom, Hdom, elem_of_list_to_set.
  - rewrite <- size_dom, Hdom. etrans; [apply size_list_to_set_le|].
    unfold node_ids. by rewrite length_fmap.
Qed.

(** X2. The children of a node are the targets of the connections that
    leave it and whose two ends are node ids, in the order of the
    connection list and with repetitions; a connection with an end that
    is no node id adds no child. *)
Theorem children_are_outgoing_targets (ns : list DiagramNode) (conns : list Connection)
    (k : attr) (h : HierarchyNode) :
  (buildHierarchy ns conns).1 !! k = Some h →
  h_children h = conn_target <$> outgoing ns conns k.
Proof.
  rewrite nodeMap_lookup. destruct (last (nodes_with_id ns k)); [|done].
  by intros [= <-].
Qed.

(** X3. The entry under an id copies the last node of the list with
    that id.  Its parent is the source of the last connection that
    enters it with both ends among the node ids; only without such a
    connection does the containment attribute of the cell stay. *)
Theorem parent_is_last_incoming_source (ns : list DiagramNode) (conns : list Connection)
    (k : attr) (h : HierarchyNode) :
  (buildHierarchy ns conns).1 !! k = Some h →
  ∃ node,
    last (nodes_with_id ns k) = Some node
    ∧ h_id h = k ∧ h_value h = node_value node ∧ h_style h = node_style node
    ∧ h_geometry h = node_geometry node
    ∧ h_parent h = match last (incoming ns conns k) with
                   | Some conn => conn_source conn
                   | None => node_parent node
                   end.
Proof.
  rewrite nodeMap_lookup. destruct (last (nodes_with_id ns k)) as [node|] eqn:E; [|done].
  intros [= <-]. exists node. simpl. split_and!; try done.
  - apply last_Some_elem_of in E. unfold nodes_with_id in E.
    apply list_elem_of_filter in E. tauto.
  - by destruct (last (incoming ns conns k)).
Qed.

Lemma find_roots_ids nodeMap (ns : list DiagramNode) :
  keyed nodeMap →
  h_id <$> find_roots nodeMap ns = filter (λ k, root_at nodeMap k = true) (node_ids ns).
Proof.
  intros Hk. unfold find_roots, node_ids.
  induction ns as [|node ns IH]; [done|]. simpl in IH |- *.
  rewrite filter_cons.
  destruct (nodeMap !! node_id node) as [h|] eqn:E.
  - assert (R : root_at nodeMap (node_id node) = is_root h) by (unfold root_at; by rewrite E).
    rewrite R. destruct (is_root h).
    + rewrite decide_True by done. simpl. f_equal; [exact (Hk _ _ E)|exact IH].
    + rewrite decide_False by (by intros ?). exact IH.
  - assert (R : root_at nodeMap (node_id node) = false) by (unfold root_at; by rewrite E).
    rewrite R, decide_False by (by intros ?). exact IH.
Qed.

(** X4. The roots come in the order of the node list: their ids are the
    node ids whose entry passes the root test, so an id that occurs
    twice among the nodes gives its root twice. *)
Theorem roots_follow_node_order (ns : list DiagramNode) (conns : list Connection) :
  h_id <$> (buildHierarchy ns conns).2
  = filter (λ k, root_at (buildHierarchy ns conns).1 k = true) (node_ids ns).
Proof.
  apply find_roots_ids, buildHierarchy_keyed.
Qed.

Lemma targeted_is_no_root ns conns k h :
  (∀ a, a ∈ node_ids ns → proper_id a) →
  incoming ns conns k ≠ [] →
  (buildHierarchy ns conns).1 !! k = Some h →
  is_root h = false.
Proof.
  intros Hid Hin. rewrite nodeMap_lookup.
  destruct (last (nodes_with_id ns k)) as [node|]; [|done]. intros [= <-].
  destruct (last (incoming ns conns k)) as [conn|] eqn:E.
  - assert (Hs : conn_source conn ∈ node_ids ns).
    { apply last_Some_elem_of in E. unfold incoming in E.
      apply list_elem_of_filter in E as [[_ [Hs _]] _]. exact Hs. }
    destruct (Hid _ Hs) as (Ht & H0 & H1).
    unfold is_root, linked. simpl. rewrite E. simpl. rewrite Ht.
    by rewrite !bool_decide_eq_false_2.
  - by apply last_None in E.
Qed.

(** X5. When every node is entered by a connection between node ids, and
    no id is empty, [0] or [1], the hierarchy has no root and the script
    gets no diagram record: a diagram that is one ring yields the fixed
    records alone. *)
Theorem no_root_no_records (toLowerCase : string → string)
    (ns : list DiagramNode) (conns : list Connection) :
  (∀ k, k ∈ node_ids ns → proper_id k) →
  (∀ k, k ∈ node_ids ns → incoming ns conns k ≠ []) →
  (buildHierarchy ns conns).2 = []
  ∧ emittedRecords toLowerCase ns conns = Some []
  ∧ scriptRecords toLowerCase ns conns
    = Some ([configRecord; rootRecord] ++ fixedProcessRecords).
Proof.
  intros Hid Hin.
  assert (Hroots : (buildHierarchy ns conns).2 = []).
  { destruct (buildHierarchy ns conns).2 as [|h l] eqn:E; [done|]. exfalso.
    assert (Hh : h ∈ (buildHierarchy ns conns).2) by (rewrite E; left).
    apply find_roots_spec in Hh as (node & Hnode & Hl & Hr).
    rewrite (targeted_is_no_root ns conns (node_id node) h) in Hr; try done.
    apply Hin. unfold node_ids. apply list_elem_of_fmap. by exists node. }
  split; [done|]. unfold emittedRecords, scriptRecords.
  destruct (buildHierarchy ns conns) as [nodeMap hierarchy]. simpl in Hroots.
  by rewrite Hroots.
Qed.

End HierarchyTheorems.

Lemma children_are_outgoing_targets_witness :
  (buildHierarchy cycle_nodes cycle_edges).1 !! Some "2"
  = Some {| h_id := Some "2"; h_value := "R"; h_style := ""; h_parent := Some "1";
            h_geometry := []; h_children := [Some "3"; Some "4"] |}
  ∧ [Some "3"; Some "4"] = conn_target <$> outgoing cycle_nodes cycle_edges (Some "2").
Proof.
  split; [by vm_compute|].
  apply (children_are_outgoing_targets cycle_nodes cycle_edges (Some "2")
           {| h_id := Some "2"; h_value := "R"; h_style := ""; h_parent := Some "1";
              h_geometry := []; h_children := [Some "3"; Some "4"] |}).
  by vm_compute.
Defined.

Lemma parent_is_last_incoming_source_witness :
  ∃ node,
    last (nodes_with_id cycle_nodes (Some "3")) = Some node
    ∧ Some "3" = Some "3" ∧ "A" = node_value node ∧ "" = node_style node
    ∧ [] = node_geometry node
    ∧ Some "4" = match last (incoming cycle_nodes cycle_edges (Some "3")) with
                 | Some conn => conn_source conn
                 | None => node_parent node
                 end.
Proof.
  apply (parent_is_last_incoming_source cycle_nodes cycle_edges (Some "3")
           {| h_id := Some "3"; h_value := "A"; h_style := ""; h_parent := Some "4";
              h_geometry := []; h_children := [Some "4"] |}).
  by vm_compute.
Defined.

Lemma no_root_no_records_witness :
  (buildHierarchy ring_nodes ring_edges).2 = []
  ∧ emittedRecords toLowerCase_ascii ring_nodes ring_edges = Some []
  ∧ scriptRecords toLowerCase_ascii ring_nodes ring_edges
    = Some ([configRecord; rootRecord] ++ fixedProcessRecords).
Proof.
  apply (no_root_no_records toLowerCase_ascii ring_nodes ring_edges).
  - intros k Hk. unfold node_ids, ring_nodes in Hk. simpl in Hk.
    cases_in_list Hk; subst k; by vm_compute.
  - intros k Hk. unfold node_ids, ring_nodes in Hk. simpl in Hk.
    cases_in_list Hk; subst k; by vm_compute.
Defined.

(** ** Shape of the traversal *)

Section TraversalShape.

Variable toLowerCase : string → string.
Variable nodeMap : gmap attr HierarchyNode.
Variable roots : list HierarchyNode.
Hypothesis nodeMap_keyed : keyed nodeMap.

Local Abbreviation process := (λ fuel, processNode toLowerCase fuel nodeMap).
Local Abbreviation traced := (Traced toLowerCase nodeMap).

Lemma attached_mono (visits more : list Visit) (i : nat) (v : Visit) :
  attached roots visits i v → attached roots (visits ++ more) i v.
Proof.
  intros [H|(j & w & Hj & Hw & Hp & Hc)]; [by left|].
  right. exists j, w. split_and!; try done. by apply lookup_app_l_Some.
Qed.

Lemma attached_known (visits : list Visit) (v : Visit) :
  attached roots visits (length visits) v → known_parent (length visits) v.2.
Proof.
  intros [[-> _]|(j & w & Hj & _ & -> & _)]; [by left|].
  right. by exists j.
Qed.

(** A call of [processNode] that returns keeps the tree shape. *)
Lemma processNode_attached (fuel : nat) :
  ∀ node parentId st st' visits,
    traced visits st →
    (∀ i v, visits !! i = Some v → attached roots visits i v) →
    nodeMap !! h_id node = Some node →
    attached roots visits (length visits) (node, parentId) →
    process fuel node parentId st = Some st' →
    ∃ more, traced (visits ++ more) st'
            ∧ ∀ i v, (visits ++ more) !! i = Some v → attached roots (visits ++ more) i v.
Proof.
  induction fuel as [|fuel IH]; intros node parentId st st' visits Ht Hall Hin Hatt; simpl.
  - destruct (set_has (processedNodes st) (h_id node)); [|done].
    intros [= <-]. exists []. by rewrite app_nil_r.
  - destruct (set_has (processedNodes st) (h_id node)) eqn:Hhas.
    { intros [= <-]. exists []. by rewrite app_nil_r. }
    apply set_has_false in Hhas.
    pose proof (Traced_push _ _ _ _ _ _ Ht Hhas Hin (attached_known _ _ Hatt)) as Ht1.
    rewrite convert_id. intros Hloop.
    eapply (forEachM_invariant
              (λ s, ∃ more,
                   traced ((visits ++ [(node, parentId)]) ++ more) s
                   ∧ ∀ i v, ((visits ++ [(node, parentId)]) ++ more) !! i = Some v →
                            attached roots ((visits ++ [(node, parentId)]) ++ more) i v))
      in Hloop.
    + destruct Hloop as (more & Hmore & Hall'). exists ([(node, parentId)] ++ more).
      by rewrite app_assoc.
    + intros childId s1 s2 Hchild_in (more & Hs1 & Hall1) Hstep.
      destruct (nodeMap !! childId) as [childNode|] eqn:Hchild.
      * pose proof (nodeMap_keyed _ _ Hchild) as Hid.
        eapply IH in Hstep as (more' & Hs2 & Hall2); [| exact Hs1 | exact Hall1 | by rewrite Hid |].
        -- exists (more ++ more'). by rewrite app_assoc.
        -- right. exists (length visits), (node, parentId). split_and!.
           ++ rewrite !length_app. simpl. lia.
           ++ rewrite <- app_assoc. by apply list_lookup_middle.
           ++ unfold nth_id. by rewrite (traced_index _ _ _ _ Ht).
           ++ simpl. by rewrite Hid.
      * injection Hstep as <-. by exists more.
    + exists []. rewrite app_nil_r. split; [done|].
      intros i v Hv. apply lookup_app_Some in Hv as [Hv|[Hlen Hv]].
      * by apply attached_mono, Hall.
      * apply list_lookup_singleton_Some in Hv as [Hz <-].
        replace i with (length visits) by lia. by apply attached_mono.
Qed.

(** Everything [processNode] processes is reachable when its node is. *)
Lemma processNode_reachable (fuel : nat) :
  ∀ node parentId st st',
    nodeMap !! h_id node = Some node →
    reachable nodeMap roots (h_id node) →
    (∀ k, k ∈ processedNodes st → reachable nodeMap roots k) →
    process fuel node parentId st = Some st' →
    ∀ k, k ∈ processedNodes st' → reachable nodeMap roots k.
Proof.
  induction fuel as [|fuel IH]; intros node parentId st st' Hin Hreach Hall; simpl.
  - destruct (set_has (processedNodes st) (h_id node)); [|done]. by intros [= <-].
  - destruct (set_has (processedNodes st) (h_id node)) eqn:Hhas; [by intros [= <-]|].
    apply set_has_false in Hhas.
    apply (forEachM_invariant (λ s, ∀ k, k ∈ processedNodes s → reachable nodeMap roots k)).
    + intros childId s1 s2 Hchild_in Hs1 Hstep.
      destruct (nodeMap !! childId) as [childNode|] eqn:Hchild; [|by injection Hstep as <-].
      pose proof (nodeMap_keyed _ _ Hchild) as Hid.
      eapply (IH childNode _ s1 s2); [by rewrite Hid | | done | exact Hstep].
      rewrite Hid. eapply reachable_child; eauto.
    + simpl. unfold set_add. rewrite (proj2 (set_has_false _ _) Hhas).
      intros k [Hk|Hk%list_elem_of_singleton]%elem_of_app; [by apply Hall | by subst k].
Qed.

Lemma explores_refl (a : GenState) : explores nodeMap a a.
Proof. split; [done|]. intros k h c Hk Hnk. done. Qed.

Lemma explores_trans (a b c : GenState) :
  explores nodeMap a b → explores nodeMap b c → explores nodeMap a c.
Proof.
  intros [Hab Cab] [Hbc Cbc]. split; [by etrans|].
  intros k h x Hk Hnk Hh Hx Hsome.
  destruct (decide (k ∈ processedNodes b)) as [Hb|Hb].
  - apply Hbc. by eapply Cab.
  - by eapply Cbc.
Qed.

(** A call of [processNode] that returns has processed its node and
    explored everything below it. *)
Lemma processNode_explores (fuel : nat) :
  ∀ node parentId st st',
    nodeMap !! h_id node = Some node →
    process fuel node parentId st = Some st' →
    h_id node ∈ processedNodes st' ∧ explores nodeMap st st'.
Proof.
  induction fuel as [|fuel IH]; intros node parentId st st' Hin; simpl.
  - destruct (set_has (processedNodes st) (h_id node)) eqn:Hhas; [|done].
    intros [= <-]. split; [by apply set_has_true | apply explores_refl].
  - destruct (set_has (processedNodes st) (h_id node)) eqn:Hhas.
    { intros [= <-]. split; [by apply set_has_true | apply explores_refl]. }
    apply set_has_false in Hhas.
    set (st1 := {| scriptArray := _; nodeIndex := _; processedNodes := _ |}).
    assert (processedNodes st1 = processedNodes st ++ [h_id node]) as Hst1.
    { unfold st1, set_add. simpl. by rewrite (proj2 (set_has_false _ _) Hhas). }
    assert (∀ cs s s',
              forEachM
                (λ childId s,
                   match nodeMap !! childId with
                   | Some childNode =>
                       process fuel childNode
                         (prop_string (convertToCommboxNode toLowerCase node (nodeIndex st) parentId) "id") s
                   | None => Some s
                   end) cs s = Some s' →
              explores nodeMap s s'
              ∧ ∀ c, c ∈ cs → is_Some (nodeMap !! c) → c ∈ processedNodes s') as Hloop.
    { induction cs as [|c cs IHcs]; intros s s'; simpl.
      - intros [= <-]. split; [apply explores_refl|]. intros c Hc. by apply elem_of_nil in Hc.
      - destruct (nodeMap !! c) as [childNode|] eqn:Hchild.
        + destruct (processNode _ _ _ childNode _ s) as [s1|] eqn:Hcall; [|done].
          intros Hrest. apply IHcs in Hrest as [Hex Hcs].
          apply IH in Hcall as [Hc Hex1]; [|by rewrite (nodeMap_keyed _ _ Hchild)].
          rewrite (nodeMap_keyed _ _ Hchild) in Hc.
          split; [by eapply explores_trans|].
          intros x [->|Hx]%elem_of_cons Hsome; [by apply (proj1 Hex) | by apply Hcs].
        + intros Hrest. apply IHcs in Hrest as [Hex Hcs]. split; [done|].
          intros x [->|Hx]%elem_of_cons Hsome; [|by apply Hcs].
          rewrite Hchild in Hsome. by destruct Hsome. }
    intros [[Hsub Hclosed] Hchildren]%Hloop.
    assert (h_id node ∈ processedNodes st') as Hnode.
    { apply Hsub. rewrite Hst1. apply elem_of_app. right. by left. }
    split; [done|]. split.
    + intros k Hk. apply Hsub. rewrite Hst1. apply elem_of_app. by left.
    + intros k h c Hk Hnk Hh Hc Hsome.
      destruct (decide (k = h_id node)) as [->|Hne].
      * rewrite Hin in Hh. injection Hh as <-. by apply Hchildren.
      * eapply Hclosed; eauto. rewrite Hst1.
        intros [?|?%list_elem_of_singleton]%elem_of_app; done.
Qed.

(** The roots are traversed one after the other; the state that results
    is traced, has the tree shape, and has processed exactly the
    reachable ids. *)
Lemma processRoots_shape :
  (∀ h, h ∈ roots → nodeMap !! h_id h = Some h) →
  ∃ st visits,
    processRoots toLowerCase nodeMap roots = Some st
    ∧ traced visits st
    ∧ (∀ i v, visits !! i = Some v → attached roots visits i v)
    ∧ (∀ k, k ∈ processedNodes st ↔ reachable nodeMap roots k).
Proof.
  intros Hroots.
  destruct (processRoots_traced toLowerCase nodeMap nodeMap_keyed roots Hroots)
    as (st & visits0 & Hst & _).
  exists st. unfold processRoots, processRootsWith in Hst.
  assert (∀ rs s s',
            (∀ h, h ∈ rs → h ∈ roots) →
            forEachM (λ rootNode s, process (size nodeMap) rootNode "node_0" s) rs s = Some s' →
            (∀ visits,
               traced visits s →
               (∀ i v, visits !! i = Some v → attached roots visits i v) →
               ∃ more, traced (visits ++ more) s'
                       ∧ ∀ i v, (visits ++ more) !! i = Some v →
                                attached roots (visits ++ more) i v)
            ∧ ((∀ k, k ∈ processedNodes s → reachable nodeMap roots k) →
               ∀ k, k ∈ processedNodes s' → reachable nodeMap roots k)
            ∧ explores nodeMap s s'
            ∧ ∀ h, h ∈ rs → h_id h ∈ processedNodes s') as Hloop.
  { induction rs as [|r rs IHrs]; intros s s' Hsub; simpl.
    - intros [= <-]. split_and!; [| done | apply explores_refl |].
      + intros visits Ht Hall. exists []. by rewrite app_nil_r.
      + intros h Hh. by apply elem_of_nil in Hh.
    - destruct (processNode _ _ _ r _ s) as [s1|] eqn:Hcall; [|done].
      intros Hrest.
      assert (r ∈ roots) as Hr by (apply Hsub; by left).
      apply IHrs in Hrest as (Hshape & Hreach & Hex & Hin); [|intros; apply Hsub; by right].
      pose proof (processNode_explores _ _ _ _ _ (Hroots _ Hr) Hcall) as [Hrin Hex1].
      split_and!.
      + intros visits Ht Hall.
        destruct (processNode_attached _ _ _ _ _ _ Ht Hall (Hroots _ Hr) (or_introl (conj eq_refl Hr)) Hcall)
          as (more & Ht1 & Hall1).
        destruct (Hshape _ Ht1 Hall1) as (more' & Ht2 & Hall2).
        exists (more ++ more'). by rewrite app_assoc.
      + intros Hs. apply Hreach.
        eapply processNode_reachable; [by apply Hroots | by constructor | exact Hs | exact Hcall].
      + by eapply explores_trans.
      + intros h [->|Hh]%elem_of_cons; [by apply (proj1 Hex) | by apply Hin]. }
  destruct (Hloop roots initialState st (λ h H, H) Hst) as (Hshape & Hreach & [_ Hclosed] & Hin).
  destruct (Hshape [] (Traced_initial toLowerCase nodeMap)) as (visits & Ht & Hall).
  { intros i v Hv. done. }
  exists visits. split_and!; try done.
  intros k. split.
  - apply Hreach. intros k' Hk'. by apply elem_of_nil in Hk'.
  - induction 1 as [h Hh|k h c Hk IHk Hh Hc Hsome]; [by apply Hin|].
    eapply Hclosed; eauto. intros Hnil. by apply elem_of_nil in Hnil.
Qed.

End TraversalShape.

Section DiagramFacts.

Variable toLowerCase : string → string.
Local Abbreviation record := (record_of toLowerCase).

(** What the traversal of a diagram visits. *)
Lemma traversal_shape (ns : list DiagramNode) (conns : list Connection) :
  ∃ visits : list Visit,
    emittedRecords toLowerCase ns conns = Some (imap record visits)
    ∧ NoDup ((h_id ∘ fst) <$> visits)
    ∧ (∀ v, v ∈ visits → (buildHierarchy ns conns).1 !! h_id v.1 = Some v.1)
    ∧ (∀ i v, visits !! i = Some v → attached (buildHierarchy ns conns).2 visits i v)
    ∧ (∀ k, k ∈ (h_id ∘ fst) <$> visits
            ↔ reachable (buildHierarchy ns conns).1 (buildHierarchy ns conns).2 k).
Proof.
  destruct (processRoots_shape toLowerCase (buildHierarchy ns conns).1
              (buildHierarchy ns conns).2 (buildHierarchy_keyed ns conns))
    as (st & visits & Hst & Ht & Hatt & Hreach).
  { apply buildHierarchy_roots_in_map. }
  exists visits. unfold emittedRecords.
  destruct (buildHierarchy ns conns) as [nodeMap hierarchy]. simpl in *.
  rewrite Hst. destruct Ht as [Hs Hi Hp Hnd Hpar Hn].
  split_and!; try done.
  - by rewrite Hs.
  - by rewrite <- Hp.
  - intros k. by rewrite <- Hp.
Qed.

(** X6. The diagram records stand for exactly the nodes that the children
    lists reach from the roots, each of them once: a node that no root
    reaches is left out of the script, whatever its label. *)
Theorem emitted_iff_reachable (ns : list DiagramNode) (conns : list Connection) :
  ∃ visits : list Visit,
    emittedRecords toLowerCase ns conns = Some (imap record visits)
    ∧ NoDup ((h_id ∘ fst) <$> visits)
    ∧ (∀ k, k ∈ (h_id ∘ fst) <$> visits
            ↔ reachable (buildHierarchy ns conns).1 (buildHierarchy ns conns).2 k).
Proof.
  destruct (traversal_shape ns conns) as (visits & Hem & Hnd & _ & _ & Hreach).
  by exists visits.
Qed.

(** X7. The records form the tree of the traversal: a record whose
    [parent] is [node_0] stands for a root of the hierarchy, and any other
    record names as [parent] the [id] of an earlier record, whose node
    lists this node among its children. *)
Theorem records_follow_children (ns : list DiagramNode) (conns : list Connection) :
  ∃ visits : list Visit,
    emittedRecords toLowerCase ns conns = Some (imap record visits)
    ∧ ∀ i v, visits !! i = Some v →
        (prop (record i v) "parent" = Some (JStr "node_0")
         ∧ v.1 ∈ (buildHierarchy ns conns).2)
        ∨ ∃ j w, j < i ∧ visits !! j = Some w
                 ∧ prop (record i v) "parent" = prop (record j w) "id"
                 ∧ h_id v.1 ∈ h_children w.1.
Proof.
  destruct (traversal_shape ns conns) as (visits & Hem & _ & _ & Hatt & _).
  exists visits. split; [done|]. intros i v Hv.
  rewrite record_parent.
  destruct (Hatt i v Hv) as [[-> Hroot]|(j & w & Hj & Hw & -> & Hc)]; [by left|].
  right. exists j, w. by rewrite record_id.
Qed.

Lemma nth_id_inj : Inj (=) (=) nth_id.
Proof.
  intros i j H. unfold nth_id in H. apply String.app_inj in H.
  apply (inj pretty) in H. lia.
Qed.

Lemma record_ids_imap (visits : list Visit) :
  record_ids (imap record visits) = (λ i, JStr (nth_id i)) <$> seq 0 (length visits).
Proof.
  unfold record_ids.
  induction visits as [|v visits IH] using rev_ind; [done|].
  rewrite imap_app, omap_app, length_app, seq_app, fmap_app, IH. simpl.
  by rewrite record_id, Nat.add_0_r.
Qed.

(** X8. The ids of the diagram records are [n_2], [n_3], ... in the order
    of the list, one per record and pairwise distinct: two records of the
    script can share an id only if one of them is a fixed record. *)
Theorem emitted_ids_are_distinct (ns : list DiagramNode) (conns : list Connection) :
  ∃ emitted,
    emittedRecords toLowerCase ns conns = Some emitted
    ∧ record_ids emitted = (λ i, JStr ("n_" +:+ pretty (2 + i))) <$> seq 0 (length emitted)
    ∧ NoDup (record_ids emitted).
Proof.
  destruct (traversal_shape ns conns) as (visits & Hem & _).
  eexists. split; [exact Hem|]. rewrite record_ids_imap, length_imap. split; [done|].
  apply NoDup_fmap_2; [|apply NoDup_seq].
  intros i j H. apply nth_id_inj.
  exact (f_equal (λ x, match x with JStr s => s | _ => "" end) H).
Qed.

(** There are no more visits than nodes. *)
Lemma visits_at_most_nodes (ns : list DiagramNode) (conns : list Connection)
    (visits : list Visit) :
  NoDup ((h_id ∘ fst) <$> visits) →
  (∀ v, v ∈ visits → (buildHierarchy ns conns).1 !! h_id v.1 = Some v.1) →
  length visits ≤ size (buildHierarchy ns conns).1
  ∧ size (buildHierarchy ns conns).1 ≤ length ns.
Proof.
  intros Hnd Hin.
  assert (Hdom : dom (buildHierarchy ns conns).1 = list_to_set (node_ids ns)).
  { unfold buildHierarchy. simpl. by rewrite links_dom, register_dom. }
  split.
  - rewrite <- (length_fmap (h_id ∘ fst)), <- (size_list_to_set (C:=gset attr) _ Hnd), <- size_dom.
    apply subseteq_size. intros k Hk. apply elem_of_list_to_set in Hk.
    apply list_elem_of_fmap in Hk as (v & -> & Hv). apply elem_of_dom.
    exists v.1. exact (Hin v Hv).
  - rewrite <- size_dom, Hdom. etrans; [apply size_list_to_set_le|].
    unfold node_ids. by rewrite length_fmap.
Qed.

(** X9. There is at most one diagram record per entry of the hierarchy
    map, hence per extracted node: the number of diagram records never
    exceeds the node count of the statistics. *)
Theorem emitted_at_most_nodes (ns : list DiagramNode) (conns : list Connection) :
  ∃ emitted,
    emittedRecords toLowerCase ns conns = Some emitted
    ∧ length emitted ≤ size (buildHierarchy ns conns).1
    ∧ size (buildHierarchy ns conns).1 ≤ length ns.
Proof.
  destruct (traversal_shape ns conns) as (visits & Hem & Hnd & Hin & _).
  eexists. split; [exact Hem|]. rewrite length_imap.
  by apply visits_at_most_nodes.
Qed.

(** X10. Every diagram record has a text, and the text is not empty: it is
    the label of the node, or [Node] and the index of the record for a
    node without label. *)
Theorem emitted_text_is_not_empty (ns : list DiagramNode) (conns : list Connection) :
  ∃ visits : list Visit,
    emittedRecords toLowerCase ns conns = Some (imap record visits)
    ∧ ∀ i v, visits !! i = Some v →
        ∃ text, prop (record i v) "text" = Some (JStr text) ∧ text ≠ ""
                ∧ (h_value v.1 ≠ "" → text = h_value v.1)
                ∧ (h_value v.1 = "" → text = "Node " +:+ pretty (2 + i)).
Proof.
  destruct (traversal_shape ns conns) as (visits & Hem & _).
  exists visits. split; [done|]. intros i v _.
  eexists. split; [apply record_text|].
  destruct (h_value v.1) as [|c s]; simpl; split_and!; try done.
Qed.

End DiagramFacts.

(** ** Escaping, read backwards *)

Section EscapeInjective.

Lemma entity_head (c : ascii) :
  (c ∈ reserved ∧ ∃ t, entity c = String "&" t) ∨ (c ≠ "&"%char ∧ entity c = String c "").
Proof.
  unfold entity, reserved.
  repeat match goal with
         | |- context [Ascii.eqb c ?x] => destruct (Ascii.eqb_spec c x) as [->|?]
         end; try (left; split; [in_list | eauto]; fail).
  right. by split.
Qed.

Lemma entity_prefix_inj (c d : ascii) (x y : string) :
  entity c +:+ x = entity d +:+ y → c = d ∧ x = y.
Proof.
  destruct (entity_head c) as [[Hc _]|[Hc Ec]], (entity_head d) as [[Hd _]|[Hd Ed]].
  - unfold reserved in Hc, Hd. cases_in_list Hc; cases_in_list Hd; subst c d;
      intros H; vm_compute in H; try discriminate H; split; congruence.
  - rewrite Ed. unfold reserved in Hc. cases_in_list Hc; subst c;
      intros H; vm_compute in H; exfalso; apply Hd; congruence.
  - rewrite Ec. unfold reserved in Hd. cases_in_list Hd; subst d;
      intros H; vm_compute in H; exfalso; apply Hc; congruence.
  - rewrite Ec, Ed, !append_cons, !append_nil_l. intros H. split; congruence.
Qed.

Lemma entity_not_empty (c : ascii) (x : string) : entity c +:+ x ≠ "".
Proof.
  destruct (entity_head c) as [[_ [t ->]]|[_ ->]]; by rewrite append_cons.
Qed.

Lemma escape_chars_inj (a b : string) : escape_chars a = escape_chars b → a = b.
Proof.
  revert b. induction a as [|c a IH]; intros [|d b]; cbn [escape_chars]; intros H.
  - done.
  - symmetry in H. by apply entity_not_empty in H.
  - by apply entity_not_empty in H.
  - apply entity_prefix_inj in H as [-> H]. by rewrite (IH b H).
Qed.

(** X11. The escaping loses nothing: two script values have the same
    escaped form only if they are the same value, so the script can be
    read back from the attribute of the envelope. *)
Theorem escapeXml_injective (a b : string) : escapeXml a = escapeXml b ↔ a = b.
Proof.
  split; [|by intros ->]. rewrite !escapeXml_charwise. apply escape_chars_inj.
Qed.

End EscapeInjective.

(** ** Extractor, parser and endpoint *)

Section ExtractorFacts.

Lemma extractNodes_in (graphModel : Document) (cells : list Xml) (cell : Xml) (node : DiagramNode) :
  cells_of graphModel = Return cells → cell ∈ cells → node ∈ node_of_cell cell →
  node ∈ extractNodes graphModel.
Proof.
  intros Hc Hin Hn. unfold extractNodes. rewrite Hc.
  apply list_elem_of_In, in_flat_map. exists cell. by rewrite <- !list_elem_of_In.
Qed.

Lemma extractConnections_in (graphModel : Document) (cells : list Xml) (cell : Xml)
    (conn : Connection) :
  cells_of graphModel = Return cells → cell ∈ cells → conn ∈ connection_of_cell cell →
  conn ∈ extractConnections graphModel.
Proof.
  intros Hc Hin Hn. unfold extractConnections. rewrite Hc.
  apply list_elem_of_In, in_flat_map. exists cell. by rewrite <- !list_elem_of_In.
Qed.

(** X12. A connector with a label is extracted twice: as a connection,
    and as a node with the same id and the label as its value, because
    the node test accepts every cell with a non-empty value. *)
Theorem labelled_edge_is_also_a_node (graphModel : Document) (cells : list Xml) (cell : Xml) :
  cells_of graphModel = Return cells →
  cell ∈ cells →
  assoc (attrs_of cell) "edge" = Some "1" →
  truthy_opt (assoc (attrs_of cell) "value") = true →
  ∃ node conn,
    node ∈ extractNodes graphModel ∧ conn ∈ extractConnections graphModel
    ∧ node_id node = assoc (attrs_of cell) "id" ∧ conn_id conn = assoc (attrs_of cell) "id"
    ∧ assoc (attrs_of cell) "value" = Some (node_value node)
    ∧ conn_value conn = node_value node.
Proof.
  intros Hc Hin He Hv. eexists _, _. split_and!.
  - eapply extractNodes_in; [done..|]. unfold node_of_cell. rewrite Hv, orb_true_r. left.
  - eapply extractConnections_in; [done..|]. unfold connection_of_cell.
    rewrite He, bool_decide_eq_true_2 by done. left.
  - done.
  - done.
  - simpl. by destruct (assoc (attrs_of cell) "value").
  - done.
Qed.

(** Such a document has no cells. *)
Lemma no_graph_model_extract (graphModel : Document) :
  no_graph_model graphModel →
  extractNodes graphModel = [] ∧ extractConnections graphModel = [].
Proof.
  unfold extractNodes, extractConnections, cells_of, root_prop.
  destruct graphModel as [[name v]|]; simpl; [|done].
  intros Hn. apply String.eqb_neq in Hn. by rewrite Hn.
Qed.

End ExtractorFacts.

Lemma labelled_edge_is_also_a_node_witness :
  ∃ node conn,
    node ∈ extractNodes labelled_edge_model ∧ conn ∈ extractConnections labelled_edge_model
    ∧ node_id node = Some "5" ∧ conn_id conn = Some "5"
    ∧ Some "yes" = Some (node_value node)
    ∧ conn_value conn = node_value node.
Proof.
  apply (labelled_edge_is_also_a_node labelled_edge_model labelled_edge_cells labelled_edge_cell).
  - reflexivity.
  - in_list.
  - reflexivity.
  - reflexivity.
Defined.

Section ParserFacts.

Variable toLowerCase : string → string.
Variable trim : string → string.
Variable Buffer_from_base64 : string → list byte.
Variable inflateRaw : list byte → Completion string.
Variable decodeURIComponent : string → Completion string.
Variable parseString : string → Completion Document.
Variable timestamp : string.
Variables now_xml now_filename now_model : nat.

Local Abbreviation decode := (decodeDrawio trim Buffer_from_base64 inflateRaw decodeURIComponent).
Local Abbreviation find := (findCompressedData parseString).
Local Abbreviation parse :=
  (parseDrawioFile trim Buffer_from_base64 inflateRaw decodeURIComponent parseString).
Local Abbreviation endpoint :=
  (convert toLowerCase trim Buffer_from_base64 inflateRaw decodeURIComponent parseString
     timestamp now_xml now_filename now_model).

Lemma parse_find_throws (fileContent : string) (e : Exn) :
  find fileContent = Throw e → parse fileContent = Throw e.
Proof. intros H. unfold parseDrawioFile. by rewrite H. Qed.

Lemma find_throws_response (fileContent msg : string) :
  msg ≠ "" →
  find fileContent = Throw (Error msg) →
  endpoint (Some fileContent) = Some (Failure 500 msg).
Proof.
  intros Hm H. unfold convert. rewrite (parse_find_throws _ _ H).
  unfold message_or, or_else. simpl. by destruct msg.
Qed.

(** X13. Of an export only the first page is read: when the root element
    is [mxfile], the compressed data is the text of its first [diagram]
    child, whether the parser gives that child as a text or as an object
    with the text beside its attributes; further pages are ignored. *)
Theorem first_diagram_is_read (fileContent : string) (a : option (list (string * string)))
    (t : option string) (children : list (string * list Xml)) (diagram : Xml) (pages : list Xml)
    (data : string) :
  parseString fileContent = Return (Some ("mxfile", XElem a t children)) →
  assoc children "diagram" = Some (diagram :: pages) →
  compressedDataOf diagram = Some data →
  data ≠ "" →
  find fileContent = Return data.
Proof.
  intros Hp Hd Hc Hne. unfold findCompressedData, findDiagram. rewrite Hp. simpl.
  rewrite Hd. simpl. rewrite Hc.
  destruct diagram as [s|? ? ?]; [simpl in Hc; injection Hc as ->|]; by destruct data.
Qed.

(** X14. An export whose first page holds no text, as one saved without
    compression does (its page holds the graph model as a child
    element), is refused: the response is a failure with the message
    [No compressed data found in diagram]. *)
Theorem uncompressed_export_is_refused (fileContent : string)
    (a a' : option (list (string * string))) (t t' : option string)
    (children children' : list (string * list Xml)) (pages : list Xml) :
  parseString fileContent = Return (Some ("mxfile", XElem a t children)) →
  assoc children "diagram" = Some (XElem a' t' children' :: pages) →
  truthy_opt t' = false →
  endpoint (Some fileContent) = Some (Failure 500 "No compressed data found in diagram").
Proof.
  intros Hp Hd Ht. apply find_throws_response; [done|].
  unfold findCompressedData, findDiagram. rewrite Hp. simpl.
  rewrite Hd. simpl. by rewrite Ht.
Qed.

(** X15. A document whose root element is neither [mxfile] nor
    [diagram], or an [mxfile] without [diagram] child, is refused with
    the message [Invalid Draw.io file format - no diagram found]. *)
Theorem no_diagram_is_refused (fileContent name : string) (v : Xml) :
  parseString fileContent = Return (Some (name, v)) →
  (name ≠ "mxfile" ∧ name ≠ "diagram") ∨ (name = "mxfile" ∧ child v "diagram" = None) →
  endpoint (Some fileContent)
  = Some (Failure 500 "Invalid Draw.io file format - no diagram found").
Proof.
  intros Hp Hcase. apply find_throws_response; [done|].
  unfold findCompressedData, findDiagram. rewrite Hp. simpl.
  destruct Hcase as [[H1 H2]|[-> Hc]].
  - apply String.eqb_neq in H1, H2. by rewrite H1, H2.
  - simpl. rewrite Hc. rewrite bool_decide_eq_false_2 by (by intros [? ?]).
    by rewrite andb_false_r.
Qed.

Lemma parse_returns (fileContent compressed markup : string) (graphModel : Document) :
  find fileContent = Return compressed →
  decode compressed = Return markup →
  parseString markup = Return graphModel →
  parse fileContent = Return {| nodes := extractNodes graphModel;
                                connections := extractConnections graphModel;
                                mxGraphModelXml := markup |}.
Proof.
  intros Hf Hd Hp. unfold parseDrawioFile. rewrite Hf. simpl. rewrite Hd. simpl. by rewrite Hp.
Qed.

(** X16. Decoded markup that is no graph model is not an error: when the
    second parse gives a document with another root element, or no
    document, the conversion succeeds with zero nodes and zero
    connections, and the script holds the fixed records alone. *)
Theorem foreign_markup_gives_empty_script (fileContent compressed markup : string)
    (graphModel : Document) :
  find fileContent = Return compressed →
  decode compressed = Return markup →
  parseString markup = Return graphModel →
  no_graph_model graphModel →
  endpoint (Some fileContent)
  = Some (Success
            (envelope (escapeXml (Json.stringify (JArr (map JObj emptyScript)))) timestamp now_xml)
            markup
            ("commbox_bot_" +:+ pretty now_filename +:+ ".xml")
            ("mxGraphModel_" +:+ pretty now_model +:+ ".xml")
            0 0).
Proof.
  intros Hf Hd Hp Hn. unfold convert.
  rewrite (parse_returns _ _ _ _ Hf Hd Hp).
  destruct (no_graph_model_extract _ Hn) as [-> ->]. reflexivity.
Qed.

(** X17. The three answers of the endpoint.  Without a file the status
    is 400; when the parsing throws it is 500 with a non-empty message;
    otherwise the conversion succeeds, the statistics count the
    extracted nodes and connections, and the script in the envelope has
    the two leading records, at most one record per counted node, and
    the four closing records. *)
Theorem convert_outcomes (file : option string) :
  match file with
  | None => endpoint file = Some (Failure 400 "לא הועלה קובץ")
  | Some fileContent =>
      match parse fileContent with
      | Throw e => ∃ msg, endpoint file = Some (Failure 500 msg) ∧ msg ≠ ""
      | Return parsedData =>
          ∃ emitted,
            emittedRecords toLowerCase (nodes parsedData) (connections parsedData) = Some emitted
            ∧ length emitted ≤ length (nodes parsedData)
            ∧ endpoint file
              = Some (Success
                        (envelope
                           (escapeXml
                              (Json.stringify
                                 (JArr (map JObj ([configRecord; rootRecord] ++ emitted
                                                    ++ fixedProcessRecords)))))
                           timestamp now_xml)
                        (mxGraphModelXml parsedData)
                        ("commbox_bot_" +:+ pretty now_filename +:+ ".xml")
                        ("mxGraphModel_" +:+ pretty now_model +:+ ".xml")
                        (length (nodes parsedData)) (length (connections parsedData)))
      end
  end.
Proof.
  destruct file as [fileContent|]; [|done].
  unfold convert. destruct (parseDrawioFile _ _ _ _ _ _) as [parsedData|e].
  - destruct (traversal_spec toLowerCase (nodes parsedData) (connections parsedData))
      as (visits & Hrec & Hem & Hnd & _ & Hin).
    exists (imap (record_of toLowerCase) visits). split; [done|]. split.
    + rewrite length_imap.
      destruct (visits_at_most_nodes _ _ _ Hnd Hin) as [H1 H2]. by etrans.
    + unfold generateCommboxXML. by rewrite Hrec.
  - eexists. split; [done|]. by apply message_or_nonempty.
Qed.

End ParserFacts.

Lemma first_diagram_is_read_witness :
  findCompressedData two_page_parser "<mxfile/>" = Return "AAAA".
Proof.
  apply (first_diagram_is_read two_page_parser "<mxfile/>" None None
           [("diagram", [XElem (Some [("name", "Page-1")]) (Some "AAAA") []; XText "BBBB"])]
           (XElem (Some [("name", "Page-1")]) (Some "AAAA") []) [XText "BBBB"] "AAAA").
  - reflexivity.
  - reflexivity.
  - reflexivity.
  - done.
Defined.

Lemma uncompressed_export_is_refused_witness :
  convert toLowerCase_ascii (λ s, s) list_byte_of_string stored_inflate plain_decode
    uncompressed_parser "1.1.2025, 10:00:00" 1 2 3 (Some "<mxfile/>")
  = Some (Failure 500 "No compressed data found in diagram").
Proof.
  apply (uncompressed_export_is_refused toLowerCase_ascii (λ s, s) list_byte_of_string
           stored_inflate plain_decode uncompressed_parser "1.1.2025, 10:00:00" 1 2 3
           "<mxfile/>" None (Some [("name", "Page-1")]) None None
           [("diagram", [XElem (Some [("name", "Page-1")]) None
                           [("mxGraphModel", [XElem None None []])]])]
           [("mxGraphModel", [XElem None None []])] []).
  - reflexivity.
  - reflexivity.
  - reflexivity.
Defined.

Lemma no_diagram_is_refused_witness :
  convert toLowerCase_ascii (λ s, s) list_byte_of_string stored_inflate plain_decode
    svg_parser "1.1.2025, 10:00:00" 1 2 3 (Some "<svg/>")
  = Some (Failure 500 "Invalid Draw.io file format - no diagram found").
Proof.
  apply (no_diagram_is_refused toLowerCase_ascii (λ s, s) list_byte_of_string
           stored_inflate plain_decode svg_parser "1.1.2025, 10:00:00" 1 2 3
           "<svg/>" "svg" (XElem None None [])).
  - reflexivity.
  - left. by split.
Defined.

Lemma foreign_markup_gives_empty_script_witness :
  convert toLowerCase_ascii (λ s, s) list_byte_of_string stored_inflate plain_decode
    staged_parser "1.1.2025, 10:00:00" 1 2 3 (Some "upload")
  = Some (Success
            (envelope (escapeXml (Json.stringify (JArr (map JObj emptyScript))))
               "1.1.2025, 10:00:00" 1)
            "AAAA" ("commbox_bot_" +:+ pretty 2 +:+ ".xml")
            ("mxGraphModel_" +:+ pretty 3 +:+ ".xml") 0 0).
Proof.
  apply (foreign_markup_gives_empty_script toLowerCase_ascii (λ s, s) list_byte_of_string
           stored_inflate plain_decode staged_parser "1.1.2025, 10:00:00" 1 2 3
           "upload" "AAAA" "AAAA" svg_document).
  - reflexivity.
  - reflexivity.
  - reflexivity.
  - done.
Defined.

(** ** Records and uploads *)

Section RecordFacts.

Variable toLowerCase : string → string.

(** X18. For a label of at most 20 UTF-16 units the record of a node is
    made of the label, the index and the parent id alone: the style of
    the node, and with it the classes start and decision, leave no trace
    in the script. *)
Theorem short_label_hides_style (a b : HierarchyNode) (index : nat) (parentId : string) :
  h_value a = h_value b →
  js_length (h_value a) ≤ 20 →
  convertToCommboxNode toLowerCase a index parentId
  = convertToCommboxNode toLowerCase b index parentId.
Proof.
  intros Hv Hlen. unfold convertToCommboxNode, detectNodeType, inputField. rewrite <- Hv.
  assert (Hshort : (20 <? js_length (h_value a)) = false) by (apply Nat.ltb_ge; lia).
  rewrite Hshort, andb_false_r.
  repeat (match goal with
          | |- context [includes ?x ?y] => destruct (includes x y)
          end; cbn [orb]); reflexivity.
Qed.

End RecordFacts.

Lemma short_label_hides_style_witness :
  convertToCommboxNode toLowerCase_ascii menu_rhombus 2 "node_0"
  = convertToCommboxNode toLowerCase_ascii menu_box 2 "node_0".
Proof.
  apply (short_label_hides_style toLowerCase_ascii menu_rhombus menu_box 2 "node_0").
  - reflexivity.
  - vm_compute. lia.
Defined.

Section UploadFacts.

Lemma endsWith_spec (s suffix : string) :
  endsWith s suffix = true ↔ ∃ stem, s = stem +:+ suffix.
Proof.
  induction s as [|c s IH]; cbn [endsWith]; rewrite orb_true_iff, String.eqb_eq.
  - split.
    + intros [<-|?]; [by exists ""|done].
    + intros [[|c stem] H]; [by left|discriminate].
  - rewrite IH. split.
    + intros [<-|[stem ->]]; [by exists ""|]. by exists (String c stem).
    + intros [[|d stem] H]; [by left|]. right. exists stem.
      rewrite append_cons in H. congruence.
Qed.

(** X19. A file passes the upload filter exactly when its declared type
    is [text/xml] or [application/xml], or its name ends in [.drawio] or
    [.xml]; the content is not looked at.  The error of a refused file
    is answered by the error handler with status 500 and the filter's
    message, status 400 being kept for the size limit. *)
Theorem upload_filter_outcomes (file : UploadedFile) :
  (fileFilter file = Return true ↔
     mimetype file = "text/xml" ∨ mimetype file = "application/xml"
     ∨ (∃ stem, originalname file = stem +:+ ".drawio")
     ∨ (∃ stem, originalname file = stem +:+ ".xml"))
  ∧ (∀ e, fileFilter file = Throw e →
          errorHandler (OtherError e) = Failure 500 "רק קבצי XML ו-Draw.io מותרים")
  ∧ (∀ e, ∃ msg, errorHandler (MulterError "LIMIT_FILE_SIZE" e) = Failure 400 msg).
Proof.
  split_and!.
  - rewrite <- !endsWith_spec, <- !String.eqb_eq, <- !orb_true_iff, !orb_assoc.
    unfold fileFilter. by destruct (_ || _ || _ || _).
  - intros e. unfold fileFilter. destruct (_ || _ || _ || _); [done|]. by intros [= <-].
  - intros e. by eexists.
Qed.

End UploadFacts.
